(** * fix_markdown2.py: the text-rewriting pipeline of [main]

    The script reads one file into a Python [str], applies two regular
    expression substitutions for bullets, one callback substitution that
    escapes tildes inside [filter:"..."] literals, four [str.replace]
    renames, and writes the text back.

    A Python [str] is a sequence of code points: a text is a [list N].
    [re.sub] and [str.replace] are modelled by one left-to-right,
    non-overlapping scanner, parameterised by the matcher tried at each
    position; the matcher of [re.sub] is a backtracking matcher for the
    fragment of the [re] syntax the script uses (literals, character
    classes, greedy [+] and [*], lazy [+?]). *)

From Stdlib Require Import List NArith Bool Arith Lia.
From Stdlib Require String Ascii.
Import String.StringSyntax.
From Stdlib Require Import Relations.Relation_Operators.
Import ListNotations.

Local Open Scope N_scope.
Local Open Scope list_scope.

(** ** Texts *)

Abbreviation char := N (only parsing).
Abbreviation text := (list N) (only parsing).

(** [str] turns a Rocq string literal into the text with the same ASCII
    code points. *)
Definition str (s : String.string) : text :=
  List.map Ascii.N_of_ascii (String.list_ascii_of_string s).

Arguments str s%_string_scope.

Definition sq : char := 39.       (* ' *)
Definition dq : char := 34.       (* the double quote *)
Definition bs : char := 92.       (* \ *)
Definition tilde : char := 126.   (* ~ *)
Definition bullet : char := 8226. (* U+2022 *)
Definition sp : char := 32.

(** [\s] on a [str] pattern: [Py_UNICODE_ISSPACE]. *)
Definition is_space (c : char) : bool :=
  ((9 <=? c) && (c <=? 13)) || ((28 <=? c) && (c <=? 32))
  || (c =? 133) || (c =? 160) || (c =? 5760)
  || ((8192 <=? c) && (c <=? 8202))
  || (c =? 8232) || (c =? 8233) || (c =? 8239) || (c =? 8287)
  || (c =? 12288).

Definition just c : char -> bool := N.eqb c.
Definition except c : char -> bool := fun x => negb (N.eqb c x).

(** ** The backtracking matcher *)

Inductive quant := Once | Plus | PlusLazy | Star.

Record piece := Piece { accepts : char -> bool; how : quant }.

Definition regex := list piece.

Definition lit (s : text) : regex := List.map (fun c => Piece (just c) Once) s.

(** A successful match returns what each piece consumed, in order, and
    the unread rest of the text. *)
Definition result := option (list text * text).

Definition extend (c : char) (r : result) : result :=
  match r with
  | Some (seg :: segs, rest) => Some ((c :: seg) :: segs, rest)
  | _ => None
  end.

Definition begin (r : result) : result :=
  match r with
  | Some (segs, rest) => Some ([] :: segs, rest)
  | None => None
  end.

(** Greedy repetition: one more character first, the continuation [k]
    only when that fails. *)
Fixpoint greedy (f : char -> bool) (k : text -> result) (s : text) : result :=
  match s with
  | c :: s' =>
      if f c then
        match extend c (greedy f k s') with
        | Some r => Some r
        | None => begin (k s)
        end
      else begin (k s)
  | [] => begin (k s)
  end.

(** Lazy repetition: the continuation first, one more character only
    when that fails. *)
Fixpoint lazy_rep (f : char -> bool) (k : text -> result) (s : text) : result :=
  match begin (k s) with
  | Some r => Some r
  | None =>
      match s with
      | c :: s' => if f c then extend c (lazy_rep f k s') else None
      | [] => None
      end
  end.

Definition one_then (f : char -> bool) (k : text -> result) (s : text) : result :=
  match s with
  | c :: s' => if f c then extend c (k s') else None
  | [] => None
  end.

Fixpoint match_here (r : regex) : text -> result :=
  match r with
  | [] => fun s => Some ([], s)
  | p :: r' =>
      let k := match_here r' in
      match how p with
      | Once => one_then (accepts p) (fun s => begin (k s))
      | Plus => one_then (accepts p) (greedy (accepts p) k)
      | PlusLazy => one_then (accepts p) (lazy_rep (accepts p) k)
      | Star => greedy (accepts p) k
      end
  end.

(** ** The scanner shared by [re.sub] and [str.replace] *)

Inductive token :=
| Gap (c : char)
| Hit (segs : list text).

Definition matcher := text -> result.

(** [skip] counts the characters of the last match still to be passed
    over.  An empty match is replaced and the scan moves one character
    on, as [re.sub] and [str.replace] do. *)
Fixpoint scan_from (m : matcher) (skip : nat) (s : text) {struct s} : list token :=
  match skip with
  | S k =>
      match s with
      | [] => []
      | _ :: s' => scan_from m k s'
      end
  | O =>
      match m s with
      | Some (segs, _) =>
          Hit segs ::
          match length (concat segs) with
          | O => match s with
                 | [] => []
                 | c :: s' => Gap c :: scan_from m O s'
                 end
          | S n => match s with
                   | [] => []
                   | _ :: s' => scan_from m n s'
                   end
          end
      | None =>
          match s with
          | [] => []
          | c :: s' => Gap c :: scan_from m O s'
          end
      end
  end.

Definition scan (m : matcher) (s : text) : list token := scan_from m O s.

Definition raw (t : token) : text :=
  match t with
  | Gap c => [c]
  | Hit segs => concat segs
  end.

Definition render (repl : list text -> text) (t : token) : text :=
  match t with
  | Gap c => [c]
  | Hit segs => repl segs
  end.

Definition sub_with (m : matcher) (repl : list text -> text) (s : text) : text :=
  flat_map (render repl) (scan m s).

(** [re.sub(pattern, repl, s)] *)
Definition re_sub (r : regex) (repl : list text -> text) (s : text) : text :=
  sub_with (match_here r) repl s.

(** ** [str.replace] and [in] *)

Fixpoint strip_prefix (p s : text) : option text :=
  match p with
  | [] => Some s
  | a :: p' =>
      match s with
      | c :: s' => if a =? c then strip_prefix p' s' else None
      | [] => None
      end
  end.

Definition literally (old : text) : matcher :=
  fun s => match strip_prefix old s with
           | Some rest => Some ([old], rest)
           | None => None
           end.

(** [s.replace(old, new)] *)
Definition str_replace (old new s : text) : text :=
  sub_with (literally old) (fun _ => new) s.

Definition starts_with (p s : text) : bool :=
  match strip_prefix p s with Some _ => true | None => false end.

(** [p in s] *)
Fixpoint contains (p s : text) : bool :=
  starts_with p s ||
  match s with
  | [] => false
  | _ :: s' => contains p s'
  end.

(** ** The transformations of [main] *)

(** Line 15: [re.sub(r"'•\s+([^']+?)\s+'", r"'\\n- \1'", content)].
    Group 1 is piece 3. *)
Definition bullet_quoted : regex :=
  [ Piece (just sq) Once; Piece (just bullet) Once; Piece is_space Plus;
    Piece (except sq) PlusLazy; Piece is_space Plus; Piece (just sq) Once ].

Definition nl_dash : text := Eval cbv in str "\n- ".

Definition quoted_item (g : list text) : text :=
  [sq] ++ nl_dash ++ nth 3 g [] ++ [sq].

Definition pass_a (content : text) : text :=
  re_sub bullet_quoted quoted_item content.

(** Line 18: [re.sub(r"(\s+)'•\s+", r"\1'\\n- ", content)].
    Group 1 is piece 0. *)
Definition bullet_continued : regex :=
  [ Piece is_space Plus; Piece (just sq) Once; Piece (just bullet) Once;
    Piece is_space Plus ].

Definition continued_item (g : list text) : text :=
  nth 0 g [] ++ [sq] ++ nl_dash.

Definition pass_b (content : text) : text :=
  re_sub bullet_continued continued_item content.

(** Lines 22-29: [escape_tildes] and its [re.sub]. *)
Definition bs_tilde : text := [bs; tilde].

Definition filter_open : text := Eval cbv in str "filter:" ++ [dq].

Definition filter_re : regex :=
  lit filter_open ++
  [ Piece (except dq) Star; Piece (just tilde) Once; Piece (except dq) Star;
    Piece (just dq) Once ].

Definition escape_tildes (g : list text) : text :=
  let full := concat g in
  if negb (contains bs_tilde full)
  then str_replace [tilde] bs_tilde full
  else full.

Definition tilde_step (content : text) : text :=
  re_sub filter_re escape_tildes content.

(** Lines 32-35. *)
Definition quoted (s : String.string) : text := dq :: str s ++ [dq].

Arguments quoted s%_string_scope.

Definition old1 : text := Eval cbv in quoted "create_device_sdt".
Definition new1 : text := Eval cbv in quoted "create_resource_sdt".
Definition old2 : text := Eval cbv in quoted "list_device_datasources".
Definition new2 : text := Eval cbv in quoted "list_resource_datasources".
Definition old3 : text := Eval cbv in quoted "list_device_properties".
Definition new3 : text := Eval cbv in quoted "list_resource_properties".
Definition old4 : text := Eval cbv in quoted "update_device_property".
Definition new4 : text := Eval cbv in quoted "update_resource_property".

Definition rename (content : text) : text :=
  str_replace old4 new4
    (str_replace old3 new3
       (str_replace old2 new2
          (str_replace old1 new1 content))).

Definition bullets (content : text) : text := pass_b (pass_a content).

(** Lines 15-35, in order. *)
Definition transform (content : text) : text :=
  rename (tilde_step (bullets content)).

Arguments filter_open : simpl never.
Arguments nl_dash : simpl never.
Arguments old1 : simpl never.
Arguments new1 : simpl never.
Arguments old2 : simpl never.
Arguments new2 : simpl never.
Arguments old3 : simpl never.
Arguments new3 : simpl never.
Arguments old4 : simpl never.
Arguments new4 : simpl never.

(** * Properties of the matcher *)

Section Matcher.

(** What a piece may consume. *)
Definition fits (p : piece) (seg : text) : Prop :=
  forallb (accepts p) seg = true /\
  match how p with
  | Once => length seg = 1%nat
  | Plus | PlusLazy => seg <> []
  | Star => True
  end.

(** A continuation is sound for [r] when its successes split the text
    into segments that fit the pieces of [r]. *)
Definition sound_for (r : regex) (k : text -> result) : Prop :=
  forall s segs rest, k s = Some (segs, rest) ->
    s = concat segs ++ rest /\ Forall2 fits r segs.

(** A continuation is complete for [r] when it succeeds on every text
    that has such a split. *)
Definition complete_for (r : regex) (k : text -> result) : Prop :=
  forall segs rest, Forall2 fits r segs -> k (concat segs ++ rest) <> None.

Variable f : char -> bool.
Variable k : text -> result.

Lemma extend_some c r x rest :
  extend c r = Some (x, rest) ->
  exists seg segs, r = Some (seg :: segs, rest) /\ x = (c :: seg) :: segs.
Proof.
  destruct r as [[[|seg segs] rest']|]; simpl; try discriminate.
  intros H; inversion H; subst. eauto.
Qed.

Lemma begin_some r x rest :
  begin r = Some (x, rest) ->
  exists segs, r = Some (segs, rest) /\ x = [] :: segs.
Proof.
  destruct r as [[segs rest']|]; simpl; try discriminate.
  intros H; inversion H; subst. eauto.
Qed.

Lemma greedy_some s x rest :
  greedy f k s = Some (x, rest) ->
  exists seg segs t,
    x = seg :: segs /\ s = seg ++ t /\ forallb f seg = true /\
    k t = Some (segs, rest).
Proof.
  revert x rest. induction s as [|c s IH]; intros x rest; simpl.
  - intros H. apply begin_some in H as (segs & Hk & ->).
    exists [], segs, []. auto.
  - destruct (f c) eqn:Hc.
    + destruct (extend c (greedy f k s)) as [[x' rest']|] eqn:He.
      * intros H; inversion H; subst.
        apply extend_some in He as (seg & segs & Hg & ->).
        apply IH in Hg as (seg' & segs' & t & E & -> & Hf & Hk).
        inversion E; subst.
        exists (c :: seg'), segs', t. simpl. rewrite Hc, Hf. auto.
      * intros H. apply begin_some in H as (segs & Hk & ->).
        exists [], segs, (c :: s). auto.
    + intros H. apply begin_some in H as (segs & Hk & ->).
      exists [], segs, (c :: s). auto.
Qed.

Lemma lazy_some s x rest :
  lazy_rep f k s = Some (x, rest) ->
  exists seg segs t,
    x = seg :: segs /\ s = seg ++ t /\ forallb f seg = true /\
    k t = Some (segs, rest).
Proof.
  revert x rest. induction s as [|c s IH]; intros x rest; simpl.
  - destruct (begin (k [])) as [[x' rest']|] eqn:Hb; try discriminate.
    intros H; inversion H; subst.
    apply begin_some in Hb as (segs & Hk & ->).
    exists [], segs, []. auto.
  - destruct (begin (k (c :: s))) as [[x' rest']|] eqn:Hb.
    + intros H; inversion H; subst.
      apply begin_some in Hb as (segs & Hk & ->).
      exists [], segs, (c :: s). auto.
    + destruct (f c) eqn:Hc; try discriminate.
      intros He. apply extend_some in He as (seg & segs & Hg & ->).
      apply IH in Hg as (seg' & segs' & t & E & -> & Hf & Hk).
      inversion E; subst.
      exists (c :: seg'), segs', t. simpl. rewrite Hc, Hf. auto.
Qed.

Lemma one_then_some (k' : text -> result) s x rest :
  one_then f k' s = Some (x, rest) ->
  exists c s' seg segs,
    s = c :: s' /\ f c = true /\ k' s' = Some (seg :: segs, rest) /\
    x = (c :: seg) :: segs.
Proof.
  destruct s as [|c s']; simpl; try discriminate.
  destruct (f c) eqn:Hc; try discriminate.
  intros He. apply extend_some in He as (seg & segs & Hk & ->).
  exists c, s', seg, segs. auto.
Qed.

(** Completeness of the two loops: they succeed as soon as the
    continuation succeeds after some run of accepted characters. *)
Lemma greedy_finds seg t :
  forallb f seg = true -> k t <> None -> greedy f k (seg ++ t) <> None.
Proof.
  intros Hf Hk. induction seg as [|c seg IH]; simpl.
  - destruct t as [|c t]; simpl.
    + destruct (k []) as [[? ?]|]; simpl; congruence.
    + destruct (f c).
      * destruct (extend c (greedy f k t)); try congruence.
        destruct (k (c :: t)) as [[? ?]|]; simpl; congruence.
      * destruct (k (c :: t)) as [[? ?]|]; simpl; congruence.
  - simpl in Hf. apply andb_prop in Hf as [Hc Hf]. rewrite Hc.
    specialize (IH Hf).
    destruct (greedy f k (seg ++ t)) as [[x rest]|] eqn:Hg; try congruence.
    apply greedy_some in Hg as (seg' & segs & t' & -> & _).
    simpl. congruence.
Qed.

Lemma lazy_finds seg t :
  forallb f seg = true -> k t <> None -> lazy_rep f k (seg ++ t) <> None.
Proof.
  intros Hf Hk. induction seg as [|c seg IH]; simpl.
  - destruct t as [|c t]; simpl;
      (destruct (k _) as [[? ?]|]; simpl; congruence).
  - simpl in Hf. apply andb_prop in Hf as [Hc Hf]. rewrite Hc.
    specialize (IH Hf).
    destruct (begin (k (c :: seg ++ t))); try congruence.
    destruct (lazy_rep f k (seg ++ t)) as [[x rest]|] eqn:Hg; try congruence.
    apply lazy_some in Hg as (seg' & segs & t' & -> & _).
    simpl. congruence.
Qed.

(** Priority: the greedy loop keeps the whole run when the continuation
    succeeds right after it. *)
Lemma greedy_takes_all seg t segs rest :
  forallb f seg = true ->
  match t with c :: _ => f c = false | [] => True end ->
  k t = Some (segs, rest) ->
  greedy f k (seg ++ t) = Some (seg :: segs, rest).
Proof.
  intros Hf Ht Hk. induction seg as [|c seg IH]; simpl.
  - destruct t as [|c t]; simpl; rewrite ?Ht, Hk; reflexivity.
  - simpl in Hf. apply andb_prop in Hf as [Hc Hf]. rewrite Hc.
    rewrite (IH Hf). reflexivity.
Qed.

(** Priority: the lazy loop stops at the first length at which the
    continuation succeeds. *)
Lemma lazy_takes_first seg t segs rest :
  forallb f seg = true ->
  k t = Some (segs, rest) ->
  (forall a b, seg = a ++ b -> b <> [] -> k (b ++ t) = None) ->
  lazy_rep f k (seg ++ t) = Some (seg :: segs, rest).
Proof.
  intros Hf Hk. induction seg as [|c seg IH]; intros Hno.
  - simpl. destruct t; simpl; rewrite Hk; reflexivity.
  - simpl in Hf. apply andb_prop in Hf as [Hc Hf].
    assert (H0 : k (c :: seg ++ t) = None)
      by (apply (Hno [] (c :: seg)); [reflexivity|discriminate]).
    cbn [app lazy_rep]. rewrite H0. cbn [begin]. rewrite Hc, IH; auto.
    intros a b -> Hb. apply (Hno (c :: a) b); auto.
Qed.

End Matcher.

Lemma match_here_sound r : sound_for r (match_here r).
Proof.
  induction r as [|p r IH]; intros s segs rest; simpl.
  - intros H; inversion H; subst. auto.
  - unfold fits. destruct (how p) eqn:Hq; intros H.
    + apply one_then_some in H as (c & s' & seg & segs' & -> & Hc & Hk & ->).
      apply begin_some in Hk as (segs'' & Hk & E). inversion E; subst.
      apply IH in Hk as [-> HF]. split; auto.
      constructor; auto. rewrite Hq. simpl. rewrite Hc. auto.
    + apply one_then_some in H as (c & s' & seg & segs' & -> & Hc & Hk & ->).
      apply greedy_some in Hk as (seg' & segs'' & t & E & -> & Hf & Hk).
      inversion E; subst. apply IH in Hk as [-> HF]. split.
      * simpl. rewrite <- app_assoc. reflexivity.
      * constructor; auto. rewrite Hq. simpl. rewrite Hc, Hf.
        split; [reflexivity|discriminate].
    + apply one_then_some in H as (c & s' & seg & segs' & -> & Hc & Hk & ->).
      apply lazy_some in Hk as (seg' & segs'' & t & E & -> & Hf & Hk).
      inversion E; subst. apply IH in Hk as [-> HF]. split.
      * simpl. rewrite <- app_assoc. reflexivity.
      * constructor; auto. rewrite Hq. simpl. rewrite Hc, Hf.
        split; [reflexivity|discriminate].
    + apply greedy_some in H as (seg' & segs'' & t & -> & -> & Hf & Hk).
      apply IH in Hk as [-> HF]. split.
      * simpl. rewrite <- app_assoc. reflexivity.
      * constructor; auto. rewrite Hq. auto.
Qed.

Lemma match_here_complete r : complete_for r (match_here r).
Proof.
  induction r as [|p r IH]; intros segs rest HF.
  - inversion HF; subst. simpl. discriminate.
  - inversion HF as [|p' seg r' segs' [Hf Hq] HF']; subst.
    specialize (IH segs' rest HF').
    cbn [concat match_here]. rewrite <- app_assoc.
    destruct (how p) eqn:Hh.
    + destruct seg as [|c [|? ?]]; try discriminate.
      simpl in Hf. rewrite andb_true_r in Hf. simpl. rewrite Hf.
      destruct (match_here r (concat segs' ++ rest)) as [[? ?]|];
        simpl; congruence.
    + destruct seg as [|c seg]; try congruence.
      simpl in Hf. apply andb_prop in Hf as [Hc Hf].
      simpl. rewrite Hc.
      pose proof (greedy_finds (accepts p) (match_here r) seg _ Hf IH) as Hg.
      destruct (greedy _ _ _) as [[x rest']|] eqn:E; try congruence.
      apply greedy_some in E as (seg' & segs'' & t & -> & _).
      simpl. discriminate.
    + destruct seg as [|c seg]; try congruence.
      simpl in Hf. apply andb_prop in Hf as [Hc Hf].
      simpl. rewrite Hc.
      pose proof (lazy_finds (accepts p) (match_here r) seg _ Hf IH) as Hg.
      destruct (lazy_rep _ _ _) as [[x rest']|] eqn:E; try congruence.
      apply lazy_some in E as (seg' & segs'' & t & -> & _).
      simpl. discriminate.
    + apply greedy_finds; auto.
Qed.

(** * Properties of the scanner *)

Section Scanner.

Variable m : matcher.

(** Every success of the matcher consumes a non-empty prefix. *)
Definition proper : Prop :=
  forall s segs rest, m s = Some (segs, rest) ->
    s = concat segs ++ rest /\ concat segs <> [].

Hypothesis m_proper : proper.

Lemma proper_nil : m [] = None.
Proof.
  destruct (m []) as [[segs rest]|] eqn:E; auto.
  apply m_proper in E as [E Hne].
  destruct (concat segs); [congruence|discriminate].
Qed.

Lemma scan_from_skip a b : scan_from m (length a) (a ++ b) = scan_from m O b.
Proof. induction a as [|c a IH]; simpl; auto. Qed.

Lemma scan_nil : scan m [] = [].
Proof. unfold scan; simpl. rewrite proper_nil. reflexivity. Qed.

Lemma scan_gap c s : m (c :: s) = None -> scan m (c :: s) = Gap c :: scan m s.
Proof. unfold scan; simpl. intros ->. reflexivity. Qed.

Lemma scan_hit s segs rest :
  m s = Some (segs, rest) -> scan m s = Hit segs :: scan m rest.
Proof.
  intros E. destruct (m_proper _ _ _ E) as [Hs Hne].
  unfold scan. destruct s as [|c s].
  - rewrite proper_nil in E. discriminate.
  - cbn [scan_from]. rewrite E.
    destruct (concat segs) as [|c' full] eqn:Hfull; [congruence|].
    simpl in Hs. inversion Hs; subst. simpl length. f_equal.
    apply scan_from_skip.
Qed.

Variable repl : list text -> text.

Lemma sub_nil : sub_with m repl [] = [].
Proof. unfold sub_with. rewrite scan_nil. reflexivity. Qed.

Lemma sub_gap c s :
  m (c :: s) = None -> sub_with m repl (c :: s) = c :: sub_with m repl s.
Proof. intros E. unfold sub_with. rewrite scan_gap by auto. reflexivity. Qed.

Lemma sub_hit s segs rest :
  m s = Some (segs, rest) ->
  sub_with m repl s = repl segs ++ sub_with m repl rest.
Proof. intros E. unfold sub_with. rewrite (scan_hit _ _ _ E). reflexivity. Qed.

(** Induction along the scan. *)
Lemma scan_ind (P : text -> Prop) :
  P [] ->
  (forall c s, m (c :: s) = None -> P s -> P (c :: s)) ->
  (forall segs rest, m (concat segs ++ rest) = Some (segs, rest) ->
     concat segs <> [] -> P rest -> P (concat segs ++ rest)) ->
  forall s, P s.
Proof.
  intros Hnil Hgap Hhit s.
  remember (length s) as n eqn:Hn.
  revert s Hn. induction n as [n IH] using lt_wf_ind. intros s Hn.
  destruct (m s) as [[segs rest]|] eqn:E.
  - destruct (m_proper _ _ _ E) as [Hs Hne]. subst s.
    apply Hhit; auto. apply (IH (length rest)); auto.
    subst n. rewrite length_app.
    destruct (concat segs); [congruence|simpl; lia].
  - destruct s as [|c s]; auto.
    apply Hgap; auto. apply (IH (length s)); auto. subst n; simpl; lia.
Qed.

Lemma raw_scan s : flat_map raw (scan m s) = s.
Proof.
  induction s as [|c s E IH|segs rest E Hne IH] using scan_ind.
  - rewrite scan_nil. reflexivity.
  - rewrite scan_gap by auto. simpl. congruence.
  - rewrite (scan_hit _ _ _ E). simpl. congruence.
Qed.

(** Where the matcher never succeeds, nothing is replaced. *)
Lemma sub_skips pre s :
  (forall a b, pre = a ++ b -> b <> [] -> m (b ++ s) = None) ->
  sub_with m repl (pre ++ s) = pre ++ sub_with m repl s.
Proof.
  induction pre as [|c pre IH]; intros Hno; auto.
  simpl. rewrite sub_gap.
  - f_equal. apply IH. intros a b -> Hb. apply (Hno (c :: a) b); auto.
  - apply (Hno [] (c :: pre)); [reflexivity|discriminate].
Qed.

(** A substitution whose replacements equal the matched text is the
    identity. *)
Lemma sub_fixed s :
  (forall a t segs rest, s = a ++ t -> m t = Some (segs, rest) ->
     repl segs = concat segs) ->
  sub_with m repl s = s.
Proof.
  pattern s. apply scan_ind; clear s;
    [|intros c s E IH|intros segs rest E Hne IH]; intros Hfix.
  - apply sub_nil.
  - rewrite sub_gap by auto. f_equal. apply IH.
    intros a t segs rest -> Ht. apply (Hfix (c :: a) t segs rest); auto.
  - rewrite (sub_hit _ _ _ E). f_equal.
    + apply (Hfix [] (concat segs ++ rest) segs rest); auto.
    + apply IH. intros a t segs' rest' -> Ht.
      apply (Hfix (concat segs ++ a) t segs' rest'); auto.
      rewrite app_assoc. reflexivity.
Qed.

End Scanner.

(** * The four matchers of the script *)

Lemma just_true c x : just c x = true <-> x = c.
Proof. unfold just. rewrite N.eqb_eq. split; congruence. Qed.

Lemma except_true c x : except c x = true <-> x <> c.
Proof.
  unfold except. rewrite negb_true_iff, N.eqb_neq. split; congruence.
Qed.

Lemma except_false c x : except c x = false <-> x = c.
Proof.
  unfold except. rewrite negb_false_iff, N.eqb_eq. split; congruence.
Qed.

(** A text splits in one way only at the first character a class
    rejects. *)
Lemma first_split (f : char -> bool) X Y c d r r' :
  forallb f X = true -> forallb f Y = true -> f c = false -> f d = false ->
  X ++ c :: r = Y ++ d :: r' -> X = Y /\ c = d /\ r = r'.
Proof.
  revert Y. induction X as [|x X IH]; intros [|y Y]; simpl; intros HX HY Hc Hd E.
  - inversion E; auto.
  - inversion E; subst. apply andb_prop in HY as [HY _]. congruence.
  - inversion E; subst. apply andb_prop in HX as [HX _]. congruence.
  - inversion E; subst.
    apply andb_prop in HX as [_ HX]. apply andb_prop in HY as [_ HY].
    destruct (IH Y HX HY Hc Hd H1) as (-> & -> & ->). auto.
Qed.

Definition single (c : char) : text := [c].

Lemma concat_single p : concat (List.map single p) = p.
Proof. induction p; simpl; congruence. Qed.

Lemma fits_once c seg : fits (Piece (just c) Once) seg -> seg = [c].
Proof.
  intros [Hf Hl]. cbn [accepts how] in *.
  destruct seg as [|x [|? ?]]; try discriminate.
  cbn [forallb] in Hf. rewrite andb_true_r in Hf.
  apply just_true in Hf. subst. reflexivity.
Qed.

Lemma fits_once_intro c : fits (Piece (just c) Once) [c].
Proof. split; simpl; auto. unfold just. rewrite N.eqb_refl. reflexivity. Qed.

Lemma fits_lit p r segs :
  Forall2 fits (lit p ++ r) segs ->
  exists segs', segs = List.map single p ++ segs' /\ Forall2 fits r segs'.
Proof.
  revert segs. induction p as [|c p IH]; simpl; intros segs HF.
  - exists segs. auto.
  - inversion HF as [|? seg ? segs0 Hc HF']; subst.
    apply fits_once in Hc as ->.
    destruct (IH _ HF') as (segs' & -> & HF''). exists segs'. auto.
Qed.

Lemma fits_lit_intro p r segs :
  Forall2 fits r segs -> Forall2 fits (lit p ++ r) (List.map single p ++ segs).
Proof.
  intros HF. induction p as [|c p IH]; simpl; auto.
  constructor; auto using fits_once_intro.
Qed.

Definition wants_input (p : piece) : bool :=
  match how p with Star => false | _ => true end.

Lemma regex_proper r :
  existsb wants_input r = true -> proper (match_here r).
Proof.
  intros Hr s segs rest E. apply match_here_sound in E as [-> HF].
  split; auto. clear rest.
  induction HF as [|p seg r segs [Hf Hq] HF IH]; simpl in *; try discriminate.
  intros Hc. apply app_eq_nil in Hc as [-> Hc].
  apply orb_prop in Hr as [Hp|Hr]; [|exact (IH Hr Hc)].
  unfold wants_input in Hp. destruct (how p); simpl in *; congruence.
Qed.

Lemma strip_prefix_some p s rest : strip_prefix p s = Some rest <-> s = p ++ rest.
Proof.
  revert s. induction p as [|a p IH]; intros s; simpl.
  - split; congruence.
  - destruct s as [|c s]; [split; discriminate|].
    destruct (a =? c) eqn:E.
    + apply N.eqb_eq in E as ->. rewrite IH. split; congruence.
    + apply N.eqb_neq in E. split; [discriminate|congruence].
Qed.

Lemma strip_prefix_app p rest : strip_prefix p (p ++ rest) = Some rest.
Proof. apply strip_prefix_some. reflexivity. Qed.

Lemma literally_some old s segs rest :
  literally old s = Some (segs, rest) <-> segs = [old] /\ s = old ++ rest.
Proof.
  unfold literally. destruct (strip_prefix old s) as [r|] eqn:E.
  - apply strip_prefix_some in E as ->. split.
    + intros H; inversion H; auto.
    + intros [-> H]. apply app_inv_head in H as ->. reflexivity.
  - split; [discriminate|]. intros [_ ->].
    rewrite strip_prefix_app in E. discriminate.
Qed.

Lemma literally_proper old : old <> [] -> proper (literally old).
Proof.
  intros Hne s segs rest E. apply literally_some in E as [-> ->].
  simpl. rewrite app_nil_r. auto.
Qed.

Lemma pass_a_proper : proper (match_here bullet_quoted).
Proof. apply regex_proper. reflexivity. Qed.

Lemma pass_b_proper : proper (match_here bullet_continued).
Proof. apply regex_proper. reflexivity. Qed.

Lemma filter_proper : proper (match_here filter_re).
Proof. apply regex_proper. reflexivity. Qed.

Create HintDb scanner.

#[local] Hint Resolve pass_a_proper pass_b_proper filter_proper : scanner.

(** ** [filter:"[^"]*~[^"]*"] *)

Definition no_dq (X : text) : bool := forallb (except dq) X.

Lemma filter_match s segs rest :
  match_here filter_re s = Some (segs, rest) ->
  exists X,
    concat segs = filter_open ++ X ++ [dq] /\
    s = filter_open ++ X ++ dq :: rest /\
    no_dq X = true /\ In tilde X.
Proof.
  intros E. apply match_here_sound in E as [-> HF].
  unfold filter_re in HF. apply fits_lit in HF as (segs' & -> & HF).
  inversion HF as [|? X1 ? ? [H1 _] HF1]; subst; clear HF.
  inversion HF1 as [|? t ? ? Ht HF2]; subst; clear HF1.
  inversion HF2 as [|? X2 ? ? [H2 _] HF3]; subst; clear HF2.
  inversion HF3 as [|? q ? ? Hq HF4]; subst; clear HF3.
  inversion HF4; subst; clear HF4.
  apply fits_once in Ht as ->. apply fits_once in Hq as ->.
  simpl in H1, H2.
  exists (X1 ++ tilde :: X2).
  rewrite concat_app, concat_single. cbn [concat]. rewrite app_nil_r.
  repeat split.
  - rewrite <- !app_assoc. reflexivity.
  - rewrite <- !app_assoc. cbn [app]. reflexivity.
  - unfold no_dq. rewrite forallb_app. simpl. rewrite H1, H2. reflexivity.
  - apply in_elt.
Qed.

Lemma filter_match_at X rest :
  no_dq X = true -> In tilde X ->
  exists segs,
    match_here filter_re (filter_open ++ X ++ dq :: rest) = Some (segs, rest) /\
    concat segs = filter_open ++ X ++ [dq].
Proof.
  intros HX Ht. apply in_split in Ht as (X1 & X2 & ->).
  unfold no_dq in HX. rewrite forallb_app in HX.
  apply andb_prop in HX as [H1 H2]. cbn [forallb] in H2.
  apply andb_prop in H2 as [_ H2].
  assert (HF : Forall2 fits filter_re
                 (List.map single filter_open ++ [X1; [tilde]; X2; [dq]])).
  { apply fits_lit_intro.
    repeat constructor; auto using fits_once_intro. }
  pose proof (match_here_complete filter_re _ rest HF) as Hc.
  rewrite concat_app, concat_single in Hc. cbn [concat] in Hc.
  rewrite app_nil_r, <- !app_assoc in Hc. cbn [app] in Hc.
  rewrite <- !app_assoc. cbn [app].
  destruct (match_here filter_re _) as [[segs rest']|] eqn:E; [|congruence].
  destruct (filter_match _ _ _ E) as (X' & Hfull & Hs & HX' & _).
  apply app_inv_head in Hs.
  assert (Hs' : (X1 ++ tilde :: X2) ++ dq :: rest = X' ++ dq :: rest')
    by (rewrite <- app_assoc; exact Hs).
  apply (first_split (except dq)) in Hs' as (<- & _ & <-); auto.
  - exists segs. split; auto. rewrite Hfull, <- !app_assoc. reflexivity.
  - rewrite forallb_app. simpl. rewrite H1, H2. reflexivity.
Qed.

(** ** [in] and single-character [replace] *)

Lemma starts_with_true p s : starts_with p s = true <-> exists r, s = p ++ r.
Proof.
  unfold starts_with. destruct (strip_prefix p s) as [r|] eqn:E.
  - apply strip_prefix_some in E. split; eauto.
  - split; [discriminate|]. intros [r ->].
    rewrite strip_prefix_app in E. discriminate.
Qed.

Lemma contains_true p s : contains p s = true <-> exists a b, s = a ++ p ++ b.
Proof.
  induction s as [|c s IH]; simpl.
  - rewrite orb_false_r, starts_with_true. split.
    + intros [r E]. exists [], r. exact E.
    + intros (a & b & E). destruct a; [eauto|discriminate].
  - rewrite orb_true_iff, starts_with_true, IH. split.
    + intros [[r E]|(a & b & ->)].
      * exists [], r. exact E.
      * exists (c :: a), b. reflexivity.
    + intros (a & b & E). destruct a as [|x a].
      * left. eauto.
      * right. inversion E; subst. eauto.
Qed.

Lemma contains_inside p a b : contains p (a ++ p ++ b) = true.
Proof. apply contains_true. eauto. Qed.

Lemma contains_middle p u X v :
  contains p X = true -> contains p (u ++ X ++ v) = true.
Proof.
  rewrite !contains_true. intros (a & b & ->).
  exists (u ++ a), (b ++ v). rewrite <- !app_assoc. reflexivity.
Qed.

(** Every tilde of a text replaced by backslash-tilde, in the words of
    the specification. *)
Definition escape_char (c : char) : text :=
  if c =? tilde then bs_tilde else [c].

Definition escape_all (X : text) : text := flat_map escape_char X.

Lemma replace_tilde s : str_replace [tilde] bs_tilde s = escape_all s.
Proof.
  assert (Hp : proper (literally [tilde]))
    by (apply literally_proper; discriminate).
  unfold str_replace. induction s as [|c s IH].
  - apply sub_nil; auto.
  - unfold escape_all. cbn [flat_map]. fold (escape_all s).
    unfold escape_char. destruct (c =? tilde) eqn:E.
    + apply N.eqb_eq in E as ->.
      rewrite (sub_hit _ Hp _ (tilde :: s) [[tilde]] s), IH; auto.
    + rewrite sub_gap, IH; auto.
      unfold literally. cbn [strip_prefix]. rewrite N.eqb_sym, E. reflexivity.
Qed.

Lemma escape_all_app a b : escape_all (a ++ b) = escape_all a ++ escape_all b.
Proof. apply flat_map_app. Qed.

Lemma escape_all_tilde_cons b : escape_all (tilde :: b) = bs_tilde ++ escape_all b.
Proof. reflexivity. Qed.

Lemma escape_all_plain a : ~ In tilde a -> escape_all a = a.
Proof.
  induction a as [|c a IH]; simpl; intros Hn; auto.
  unfold escape_char. destruct (c =? tilde) eqn:E.
  - apply N.eqb_eq in E. tauto.
  - simpl. f_equal. apply IH. tauto.
Qed.

Lemma escape_all_no_dq X : no_dq X = true -> no_dq (escape_all X) = true.
Proof.
  unfold no_dq. induction X as [|c X IH]; simpl; auto.
  intros H. apply andb_prop in H as [Hc HX].
  rewrite forallb_app, (IH HX), andb_true_r.
  unfold escape_char. destruct (c =? tilde); simpl; [reflexivity|].
  rewrite Hc. reflexivity.
Qed.

Lemma escape_all_escaped X : In tilde X -> contains bs_tilde (escape_all X) = true.
Proof.
  intros H. apply in_split in H as (a & b & ->).
  rewrite escape_all_app, escape_all_tilde_cons. apply contains_inside.
Qed.

Lemma escape_all_tilde X : In tilde X -> In tilde (escape_all X).
Proof.
  intros H. apply in_split in H as (a & b & ->).
  rewrite escape_all_app, escape_all_tilde_cons.
  apply in_or_app. right. simpl. auto.
Qed.

(** What [escape_tildes] returns on a span [filter:"X"]. *)
Definition escaped_inside (X : text) : text :=
  if contains bs_tilde (filter_open ++ X ++ [dq]) then X else escape_all X.

Lemma escape_tildes_span g X :
  concat g = filter_open ++ X ++ [dq] ->
  escape_tildes g = filter_open ++ escaped_inside X ++ [dq].
Proof.
  intros E. unfold escape_tildes, escaped_inside. rewrite E.
  destruct (contains bs_tilde _); cbn [negb]; auto.
  rewrite replace_tilde, !escape_all_app.
  rewrite (escape_all_plain filter_open), (escape_all_plain [dq]); auto.
  - simpl. intros [H|[]]. discriminate.
  - unfold filter_open. simpl. intuition discriminate.
Qed.

Lemma escaped_inside_ok X :
  no_dq X = true -> In tilde X ->
  no_dq (escaped_inside X) = true /\ In tilde (escaped_inside X) /\
  contains bs_tilde (filter_open ++ escaped_inside X ++ [dq]) = true.
Proof.
  intros HX Ht. unfold escaped_inside.
  destruct (contains bs_tilde _) eqn:E; auto.
  repeat split.
  - apply escape_all_no_dq; auto.
  - apply escape_all_tilde; auto.
  - apply contains_middle, escape_all_escaped; auto.
Qed.

Lemma escaped_inside_twice X :
  no_dq X = true -> In tilde X ->
  escaped_inside (escaped_inside X) = escaped_inside X.
Proof.
  intros HX Ht. destruct (escaped_inside_ok X HX Ht) as (_ & _ & H).
  unfold escaped_inside at 1. rewrite H. reflexivity.
Qed.

(** ** How [tilde_step] unfolds *)

Lemma tilde_nil : tilde_step [] = [].
Proof. apply sub_nil, filter_proper. Qed.

Lemma tilde_gap c s :
  match_here filter_re (c :: s) = None -> tilde_step (c :: s) = c :: tilde_step s.
Proof. apply sub_gap. Qed.

Lemma tilde_hit X rest :
  no_dq X = true -> In tilde X ->
  tilde_step (filter_open ++ X ++ dq :: rest) =
  filter_open ++ escaped_inside X ++ dq :: tilde_step rest.
Proof.
  intros HX Ht. destruct (filter_match_at X rest HX Ht) as (segs & E & Hfull).
  unfold tilde_step, re_sub.
  rewrite (sub_hit _ filter_proper _ _ _ _ E), (escape_tildes_span _ X Hfull).
  rewrite <- !app_assoc. reflexivity.
Qed.

Lemma tilde_ind (P : text -> Prop) :
  P [] ->
  (forall c s, match_here filter_re (c :: s) = None -> P s -> P (c :: s)) ->
  (forall X rest, no_dq X = true -> In tilde X -> P rest ->
     P (filter_open ++ X ++ dq :: rest)) ->
  forall s, P s.
Proof.
  intros Hnil Hgap Hhit.
  apply (scan_ind _ filter_proper); auto.
  intros segs rest E _ IH.
  destruct (filter_match _ _ _ E) as (X & Hfull & Hs & HX & Ht).
  rewrite Hs. auto.
Qed.

(** A literal that has no [f] in it is copied: no match starts inside. *)
Lemma tilde_step_prefix p s t' :
  ~ In 102 p -> tilde_step s = p ++ t' ->
  exists t, s = p ++ t /\ tilde_step t = t'.
Proof.
  revert s. induction p as [|a p IH]; intros s Hp E.
  - exists s. auto.
  - revert E. pattern s. apply tilde_ind; clear s.
    + rewrite tilde_nil. discriminate.
    + intros c s Hm _ E. rewrite tilde_gap in E by auto.
      inversion E; subst.
      destruct (IH s) as (t & -> & Ht); auto.
      * simpl in Hp. tauto.
      * exists t. auto.
    + intros X rest HX Ht _ E. rewrite tilde_hit in E by auto.
      inversion E; subst. simpl in Hp. tauto.
Qed.

Definition filter_word : text := Eval cbv in str "filter:".

Lemma filter_open_word : filter_open = filter_word ++ [dq].
Proof. reflexivity. Qed.

(** The text up to the first double quote: [tilde_step] keeps the quote
    and does not bring a tilde before it. *)
Lemma tilde_step_first_dq t X rest :
  tilde_step t = X ++ dq :: rest -> no_dq X = true ->
  exists X0 rest0,
    t = X0 ++ dq :: rest0 /\ no_dq X0 = true /\ (In tilde X -> In tilde X0).
Proof.
  revert X rest. pattern t. apply tilde_ind; clear t.
  - intros X rest E. rewrite tilde_nil in E. destruct X; discriminate.
  - intros c s Hm IH X rest E HX. rewrite tilde_gap in E by auto.
    destruct X as [|x X]; inversion E; subst.
    + exists [], s. simpl. tauto.
    + cbn [no_dq forallb] in HX. apply andb_prop in HX as [Hx HX].
      destruct (IH _ _ H1 HX) as (X0 & rest0 & -> & HX0 & Ht).
      exists (x :: X0), rest0. repeat split.
      * cbn [no_dq forallb]. rewrite Hx. exact HX0.
      * simpl. tauto.
  - intros X1 r HX1 Ht1 _ X rest E HX. rewrite tilde_hit in E by auto.
    rewrite filter_open_word, <- app_assoc in E. cbn [app] in E.
    apply (first_split (except dq)) in E as (<- & _ & _); auto.
    exists filter_word, (X1 ++ dq :: r). repeat split. auto.
Qed.

Lemma filter_none_kept c s :
  match_here filter_re (c :: s) = None ->
  match_here filter_re (c :: tilde_step s) = None.
Proof.
  intros Hm.
  destruct (match_here filter_re (c :: tilde_step s)) as [[segs rest]|] eqn:E;
    auto.
  exfalso.
  destruct (filter_match _ _ _ E) as (X & _ & Hs & HX & Ht).
  unfold filter_open in Hs. cbn [app] in Hs. inversion Hs as [[Hc Hs']].
  change (tilde_step s = [105; 108; 116; 101; 114; 58; 34] ++ X ++ dq :: rest)
    in Hs'.
  apply tilde_step_prefix in Hs' as (t & -> & Hs').
  - apply tilde_step_first_dq in Hs' as (X0 & rest0 & -> & HX0 & Ht0); auto.
    destruct (filter_match_at X0 rest0 HX0 (Ht0 Ht)) as (segs' & E' & _).
    unfold filter_open in E'. cbn [app] in E', Hm.
    subst c. pose proof (eq_trans (eq_sym E') Hm) as F. discriminate F.
  - simpl. intuition discriminate.
Qed.

(** C1.  Applying the tilde-escaping substitution to its own output
    changes nothing: for every text, two applications give the same
    text as one. *)
Theorem tilde_step_idempotent (s : text) :
  tilde_step (tilde_step s) = tilde_step s.
Proof.
  pattern s. apply tilde_ind; clear s.
  - rewrite !tilde_nil. reflexivity.
  - intros c s Hm IH.
    rewrite (tilde_gap c s Hm).
    rewrite (tilde_gap c (tilde_step s) (filter_none_kept c s Hm)), IH.
    reflexivity.
  - intros X rest HX Ht IH.
    destruct (escaped_inside_ok X HX Ht) as (HX' & Ht' & _).
    rewrite (tilde_hit X rest HX Ht).
    rewrite (tilde_hit _ _ HX' Ht'), escaped_inside_twice, IH; auto.
Qed.

(** * Matched spans *)

Section Tokens.

Variable m : matcher.
Hypothesis m_proper : proper m.
Variable repl : list text -> text.

(** A [Hit] of the scan is a success of the matcher at the position
    where the texts of the tokens before it end. *)
Lemma scan_split s before segs after :
  scan m s = before ++ Hit segs :: after ->
  exists rest,
    m (concat segs ++ rest) = Some (segs, rest) /\
    s = flat_map raw before ++ concat segs ++ rest /\
    after = scan m rest.
Proof.
  revert before. pattern s. apply (scan_ind m m_proper); clear s.
  - intros before E. rewrite scan_nil in E by auto.
    destruct before; discriminate.
  - intros c s Hm IH before E. rewrite scan_gap in E by auto.
    destruct before as [|t before]; inversion E; subst.
    destruct (IH _ H1) as (rest & Hr & -> & ->).
    exists rest. auto.
  - intros segs0 rest0 Hm Hne IH before E.
    rewrite (scan_hit m m_proper _ _ _ Hm) in E.
    destruct before as [|t before]; inversion E; subst.
    + exists rest0. auto.
    + destruct (IH _ H1) as (rest & Hr & -> & ->).
      exists rest. cbn [flat_map raw]. rewrite <- app_assoc. auto.
Qed.

Lemma sub_split s before segs after :
  scan m s = before ++ Hit segs :: after ->
  s = flat_map raw before ++ concat segs ++ flat_map raw after /\
  sub_with m repl s =
    flat_map (render repl) before ++ repl segs ++ flat_map (render repl) after.
Proof.
  intros E. split.
  - rewrite <- (raw_scan m m_proper s) at 1. rewrite E, flat_map_app.
    reflexivity.
  - unfold sub_with. rewrite E, flat_map_app. reflexivity.
Qed.

End Tokens.

(** C3.  A span the tilde substitution matches and that already holds
    a backslash-tilde comes out exactly as it went in, whatever other
    tildes it holds: the text is the tokens before the span, the span,
    the tokens after it, and so is the result, with the same span. *)
Theorem escaped_span_unmodified (s : text) (before : list token)
    (segs : list text) (after : list token) :
  scan (match_here filter_re) s = before ++ Hit segs :: after ->
  contains bs_tilde (concat segs) = true ->
  (exists X, concat segs = filter_open ++ X ++ [dq] /\
             no_dq X = true /\ In tilde X) /\
  s = flat_map raw before ++ concat segs ++ flat_map raw after /\
  tilde_step s =
    flat_map (render escape_tildes) before ++ concat segs ++
    flat_map (render escape_tildes) after.
Proof.
  intros E Hesc.
  destruct (scan_split _ filter_proper _ _ _ _ E) as (rest & Hm & _ & _).
  destruct (filter_match _ _ _ Hm) as (X & Hfull & _ & HX & Ht).
  destruct (sub_split _ filter_proper escape_tildes _ _ _ _ E) as [Hs Hout].
  split; [eauto|]. split; [exact Hs|].
  unfold tilde_step, re_sub. rewrite Hout.
  unfold escape_tildes at 2. rewrite Hesc. reflexivity.
Qed.

Definition mixed_span : text :=
  Eval cbv in filter_open ++ str "a\~b~c" ++ [dq].

Definition mixed_segs : list text :=
  Eval cbv in List.map single filter_open ++ [str "a\~b"; [tilde]; str "c"; [dq]].

Lemma escaped_span_unmodified_witness : tilde_step mixed_span = mixed_span.
Proof.
  exact (proj2 (proj2
    (escaped_span_unmodified mixed_span [] mixed_segs [] eq_refl eq_refl))).
Defined.

(** C4.  A span the tilde substitution matches and that holds no
    backslash-tilde has every tilde between its quotes replaced by
    backslash-tilde, and nothing else changed. *)
Theorem unescaped_span_escaped (s : text) (before : list token)
    (segs : list text) (after : list token) :
  scan (match_here filter_re) s = before ++ Hit segs :: after ->
  contains bs_tilde (concat segs) = false ->
  exists X,
    no_dq X = true /\ In tilde X /\
    s = flat_map raw before ++ (filter_open ++ X ++ [dq]) ++
        flat_map raw after /\
    tilde_step s =
      flat_map (render escape_tildes) before ++
      (filter_open ++ escape_all X ++ [dq]) ++
      flat_map (render escape_tildes) after.
Proof.
  intros E Hesc.
  destruct (scan_split _ filter_proper _ _ _ _ E) as (rest & Hm & _ & _).
  destruct (filter_match _ _ _ Hm) as (X & Hfull & _ & HX & Ht).
  destruct (sub_split _ filter_proper escape_tildes _ _ _ _ E) as [Hs Hout].
  exists X. repeat split; auto.
  - rewrite <- Hfull. exact Hs.
  - unfold tilde_step, re_sub. rewrite Hout.
    rewrite (escape_tildes_span segs X Hfull).
    unfold escaped_inside. rewrite <- Hfull, Hesc. reflexivity.
Qed.

Definition name_filter : text :=
  Eval cbv in filter_open ++ str "name~*test*" ++ [dq].

Definition name_filter_segs : list text :=
  Eval cbv in List.map single filter_open ++ [str "name"; [tilde]; str "*test*"; [dq]].

Definition name_filter_escaped : text :=
  Eval cbv in filter_open ++ str "name\~*test*" ++ [dq].

Lemma unescaped_span_escaped_witness : tilde_step name_filter = name_filter_escaped.
Proof.
  destruct (unescaped_span_escaped name_filter [] name_filter_segs []
              eq_refl eq_refl) as (X & _ & _ & Hs & Hout).
  cbn [flat_map app] in Hs, Hout. rewrite !app_nil_r in Hs, Hout.
  rewrite Hout.
  change name_filter with (filter_open ++ str "name~*test*" ++ [dq]) in Hs.
  apply app_inv_head, app_inv_tail in Hs. rewrite <- Hs.
  reflexivity.
Defined.

(** * Worked example of the bullet step *)

Definition wildcards_in : text :=
  Eval cbv in [sq; bullet] ++ str " Supports wildcards  " ++ [sq].

Definition wildcards_out : text :=
  Eval cbv in [sq] ++ str "\n- Supports wildcards" ++ [sq].

(** C7.  The single-quoted span made of a bullet, a space, the words
    Supports wildcards and two spaces becomes the single-quoted span
    backslash, n, hyphen, space, Supports wildcards: the spaces before
    the closing quote are gone.  The second bullet pass leaves that
    result alone. *)
Theorem bullet_example :
  pass_a wildcards_in = wildcards_out /\ bullets wildcards_in = wildcards_out.
Proof. split; vm_compute; reflexivity. Qed.

(** * Clean input *)

(** The text up to the first double quote, when there is one. *)
Fixpoint until_dq (s : text) : option text :=
  match s with
  | [] => None
  | c :: s' =>
      if c =? dq then Some []
      else match until_dq s' with
           | Some X => Some (c :: X)
           | None => None
           end
  end.

(** The inside of a [filter:"..."] span that starts where [t] starts. *)
Definition span_at (t : text) : option text :=
  match strip_prefix filter_open t with
  | Some r => until_dq r
  | None => None
  end.

(** The insides of all [filter:"..."] spans of a text. *)
Fixpoint spans (s : text) : list text :=
  match span_at s with Some X => [X] | None => [] end ++
  match s with
  | [] => []
  | _ :: s' => spans s'
  end.

(** A tilde that no backslash precedes. *)
Fixpoint bare_tilde (after_bs : bool) (X : text) : bool :=
  match X with
  | [] => false
  | c :: X' => ((c =? tilde) && negb after_bs) || bare_tilde (c =? bs) X'
  end.

Definition has_unescaped_tilde (X : text) : bool := bare_tilde false X.

Lemma until_dq_some X rest : no_dq X = true -> until_dq (X ++ dq :: rest) = Some X.
Proof.
  unfold no_dq. induction X as [|c X IH]; simpl; auto.
  intros H. apply andb_prop in H as [Hc HX].
  apply except_true in Hc. apply N.eqb_neq in Hc. rewrite Hc, (IH HX).
  reflexivity.
Qed.

Lemma spans_unfold s :
  spans s =
  match span_at s with Some X => [X] | None => [] end ++
  match s with [] => [] | _ :: s' => spans s' end.
Proof. destruct s; reflexivity. Qed.

Lemma spans_in a X rest :
  no_dq X = true -> In X (spans (a ++ filter_open ++ X ++ dq :: rest)).
Proof.
  intros HX. induction a as [|c a IH].
  - cbn [app]. rewrite spans_unfold.
    unfold span_at at 1. rewrite strip_prefix_app, (until_dq_some _ _ HX).
    left. reflexivity.
  - cbn [app spans]. apply in_or_app. right. exact IH.
Qed.

Lemma bare_tilde_none b X :
  bare_tilde b X = false -> In tilde X ->
  contains bs_tilde X = true \/ (b = true /\ exists X', X = tilde :: X').
Proof.
  revert b. induction X as [|c X IH]; intros b; cbn [bare_tilde In];
    [tauto|].
  intros H Ht. apply orb_false_elim in H as [Hc HX].
  destruct (c =? tilde) eqn:E.
  - apply N.eqb_eq in E as ->. right. destruct b; [eauto|discriminate].
  - apply N.eqb_neq in E. destruct Ht as [Ht|Ht]; [congruence|].
    left. destruct (IH _ HX Ht) as [Hin|[Hb [X' ->]]].
    + apply contains_true in Hin as (u & v & ->).
      apply contains_true. exists (c :: u), v. reflexivity.
    + apply N.eqb_eq in Hb as ->. apply (contains_inside bs_tilde [] X').
Qed.

Section Untouched.

Variable m : matcher.
Hypothesis m_proper : proper m.
Variable repl : list text -> text.

Lemma sub_never s :
  (forall a t, s = a ++ t -> m t = None) -> sub_with m repl s = s.
Proof.
  intros Hno. apply sub_fixed; auto.
  intros a t segs rest E Hm. rewrite (Hno _ _ E) in Hm. discriminate.
Qed.

End Untouched.

Lemma replace_absent old new s :
  old <> [] -> contains old s = false -> str_replace old new s = s.
Proof.
  intros Hne Hc. apply sub_never; [apply literally_proper, Hne|].
  intros a t -> .
  destruct (literally old t) as [[segs rest]|] eqn:E; auto.
  apply literally_some in E as [_ ->].
  rewrite contains_inside in Hc. discriminate.
Qed.

Lemma in_contains c s : In c s -> contains [c] s = true.
Proof.
  intros H. apply in_split in H as (a & b & ->).
  apply (contains_inside [c] a b).
Qed.

Lemma pass_a_no_bullet s : contains [bullet] s = false -> pass_a s = s.
Proof.
  intros Hb. apply sub_never; [apply pass_a_proper|].
  intros a t ->.
  destruct (match_here bullet_quoted t) as [[segs rest]|] eqn:E; auto.
  apply match_here_sound in E as [-> HF].
  inversion HF as [|? q ? segs1 Hq HF1]; subst.
  inversion HF1 as [|? b ? segs2 Hbu HF2]; subst.
  apply fits_once in Hq as ->. apply fits_once in Hbu as ->.
  rewrite in_contains in Hb; [discriminate|].
  apply in_or_app. right. simpl. auto.
Qed.

Lemma pass_b_no_bullet s : contains [bullet] s = false -> pass_b s = s.
Proof.
  intros Hb. apply sub_never; [apply pass_b_proper|].
  intros a t ->.
  destruct (match_here bullet_continued t) as [[segs rest]|] eqn:E; auto.
  apply match_here_sound in E as [-> HF].
  inversion HF as [|? W ? segs1 HW HF1]; subst.
  inversion HF1 as [|? q ? segs2 Hq HF2]; subst.
  inversion HF2 as [|? b ? segs3 Hbu HF3]; subst.
  apply fits_once in Hq as ->. apply fits_once in Hbu as ->.
  rewrite in_contains in Hb; [discriminate|].
  apply in_or_app. right. apply in_or_app. left. simpl.
  apply in_or_app. right. simpl. auto.
Qed.

Lemma tilde_step_escaped s :
  existsb has_unescaped_tilde (spans s) = false -> tilde_step s = s.
Proof.
  intros Hs. apply sub_fixed; [apply filter_proper|].
  intros a t segs rest -> Hm.
  destruct (filter_match _ _ _ Hm) as (X & Hfull & -> & HX & Ht).
  assert (Hu : has_unescaped_tilde X = false).
  { destruct (has_unescaped_tilde X) eqn:Hu; auto.
    assert (He : existsb has_unescaped_tilde
                   (spans (a ++ filter_open ++ X ++ dq :: rest)) = true)
      by (apply existsb_exists; exists X; auto using spans_in).
    congruence. }
  destruct (bare_tilde_none _ _ Hu Ht) as [Hin|[? _]]; [|discriminate].
  unfold escape_tildes. rewrite Hfull.
  rewrite (contains_middle _ _ _ _ Hin). reflexivity.
Qed.

(** C8.  A text with no bullet character, no [filter:"..."] span
    holding a tilde that no backslash precedes, and none of the four
    quoted legacy identifiers goes through the whole pipeline
    unchanged. *)
Theorem clean_input_unchanged (s : text) :
  contains [bullet] s = false ->
  existsb has_unescaped_tilde (spans s) = false ->
  contains old1 s = false -> contains old2 s = false ->
  contains old3 s = false -> contains old4 s = false ->
  transform s = s.
Proof.
  intros Hb Ht H1 H2 H3 H4. unfold transform, bullets, rename.
  rewrite (pass_a_no_bullet s Hb), (pass_b_no_bullet s Hb).
  rewrite (tilde_step_escaped s Ht).
  rewrite (replace_absent old1 new1 s), (replace_absent old2 new2 s),
    (replace_absent old3 new3 s), (replace_absent old4 new4 s);
    auto; discriminate.
Qed.

Definition clean_text : text :=
  Eval cbv in
    str "use " ++ filter_open ++ str "name\~*x*" ++ [dq] ++
    str " with 'a ~ b' and " ++ quoted "create_resource_sdt".

Lemma clean_input_unchanged_witness : transform clean_text = clean_text.
Proof.
  apply clean_input_unchanged; vm_compute; reflexivity.
Defined.

(** * The renames *)

(** One [str.replace], as a relation between the text and the result:
    scanning from the left, an occurrence of [old] that starts at the
    current position is replaced by [new] and the scan goes on after
    it; any other character is copied. *)
Inductive Replaced (old new : text) : text -> text -> Prop :=
| rp_nil : Replaced old new [] []
| rp_hit s out :
    Replaced old new s out -> Replaced old new (old ++ s) (new ++ out)
| rp_gap c s out :
    starts_with old (c :: s) = false ->
    Replaced old new s out -> Replaced old new (c :: s) (c :: out).

Lemma literally_none old s : literally old s = None <-> starts_with old s = false.
Proof.
  unfold literally, starts_with.
  destruct (strip_prefix old s); split; congruence.
Qed.

Lemma str_replace_Replaced old new s :
  old <> [] -> Replaced old new s (str_replace old new s).
Proof.
  intros Hne. pose proof (literally_proper old Hne) as Hp.
  unfold str_replace. pattern s. apply (scan_ind _ Hp); clear s.
  - rewrite sub_nil by auto. constructor.
  - intros c s Hm IH. rewrite sub_gap by auto.
    constructor; auto. apply literally_none, Hm.
  - intros segs rest Hm _ IH. rewrite (sub_hit _ Hp _ _ _ _ Hm).
    apply literally_some in Hm as [-> _]. cbn [concat].
    rewrite app_nil_r. constructor. exact IH.
Qed.

(** The relation leaves no choice: it has one result for each text. *)
Lemma Replaced_unique old new s out :
  old <> [] -> Replaced old new s out -> out = str_replace old new s.
Proof.
  intros Hne H. pose proof (literally_proper old Hne) as Hp.
  unfold str_replace. induction H as [|s out H IH|c s out Hc H IH].
  - rewrite sub_nil by auto. reflexivity.
  - rewrite (sub_hit _ Hp _ (old ++ s) [old] s), IH; auto.
    apply literally_some. auto.
  - rewrite sub_gap, IH; auto. apply literally_none, Hc.
Qed.

(** A text in which a second occurrence begins on the closing quote of
    the first. *)
Definition overlapping : text := Eval cbv in old1 ++ tl old1.

(** The occurrence of the first legacy identifier that starts at offset
    18 of [overlapping] is still there, verbatim, at the matching
    offset of the result: the scan had passed its first character. *)
Lemma rename_leaves_overlap :
  overlapping = removelast old1 ++ old1 /\
  rename overlapping = removelast new1 ++ old1 /\
  contains old1 (rename overlapping) = true.
Proof. repeat split; vm_compute; reflexivity. Qed.

(** X4.  Lines 32-35 are four replacements in a row, and each of them
    replaces the occurrences of its quoted legacy identifier that a
    left-to-right scan meets, going on after each one it replaces, and
    copies every other character. *)
Theorem rename_correct (s : text) :
  exists s1 s2 s3,
    Replaced old1 new1 s s1 /\ Replaced old2 new2 s1 s2 /\
    Replaced old3 new3 s2 s3 /\ Replaced old4 new4 s3 (rename s).
Proof.
  exists (str_replace old1 new1 s),
         (str_replace old2 new2 (str_replace old1 new1 s)),
         (str_replace old3 new3
            (str_replace old2 new2 (str_replace old1 new1 s))).
  unfold rename.
  repeat split; apply str_replace_Replaced; discriminate.
Qed.

(** * The two bullet patterns *)

Definition no_sq (X : text) : bool := forallb (except sq) X.
Definition spaces (W : text) : bool := forallb is_space W.

Definition starts_with_space (s : text) : bool :=
  match s with c :: _ => is_space c | [] => false end.

Definition ends_in_space (s : text) : bool :=
  match rev s with c :: _ => is_space c | [] => false end.

Lemma space_not_sq c : is_space c = true -> except sq c = true.
Proof.
  intros H. apply except_true. intros ->. discriminate.
Qed.

Lemma spaces_no_sq W : spaces W = true -> no_sq W = true.
Proof.
  unfold spaces, no_sq. induction W as [|c W IH]; cbn [forallb]; auto.
  intros H. apply andb_prop in H as [Hc HW].
  rewrite (space_not_sq c Hc), (IH HW). reflexivity.
Qed.

Lemma ends_in_space_app a c : ends_in_space (a ++ [c]) = is_space c.
Proof. unfold ends_in_space. rewrite rev_app_distr. reflexivity. Qed.

Lemma ends_in_space_spaces W : W <> [] -> spaces W = true -> ends_in_space W = true.
Proof.
  intros Hne HW. destruct (exists_last Hne) as (a & c & ->).
  rewrite ends_in_space_app. unfold spaces in HW.
  rewrite forallb_app in HW. apply andb_prop in HW as [_ HW].
  simpl in HW. rewrite andb_true_r in HW. exact HW.
Qed.

Lemma ends_in_space_suffix a b : b <> [] -> ends_in_space (a ++ b) = ends_in_space b.
Proof.
  intros Hne. destruct (exists_last Hne) as (b' & c & ->).
  rewrite app_assoc, !ends_in_space_app. reflexivity.
Qed.

(** What a match of the first bullet pattern looks like. *)
Lemma quoted_match s segs rest :
  match_here bullet_quoted s = Some (segs, rest) ->
  exists W1 G W2,
    segs = [[sq]; [bullet]; W1; G; W2; [sq]] /\
    s = sq :: bullet :: W1 ++ G ++ W2 ++ sq :: rest /\
    W1 <> [] /\ spaces W1 = true /\ G <> [] /\ no_sq G = true /\
    W2 <> [] /\ spaces W2 = true.
Proof.
  intros E. apply match_here_sound in E as [-> HF].
  inversion HF as [|? q ? ? Hq HF1]; subst; clear HF.
  inversion HF1 as [|? b ? ? Hb HF2]; subst; clear HF1.
  inversion HF2 as [|? W1 ? ? [H1 N1] HF3]; subst; clear HF2.
  inversion HF3 as [|? G ? ? [HG NG] HF4]; subst; clear HF3.
  inversion HF4 as [|? W2 ? ? [H2 N2] HF5]; subst; clear HF4.
  inversion HF5 as [|? q2 ? ? Hq2 HF6]; subst; clear HF5.
  inversion HF6; subst; clear HF6.
  apply fits_once in Hq as ->. apply fits_once in Hb as ->.
  apply fits_once in Hq2 as ->.
  exists W1, G, W2. cbn [concat app accepts how] in *.
  rewrite <- !app_assoc. repeat split; auto.
Qed.

(** What a match of the second bullet pattern looks like. *)
Lemma continued_match s segs rest :
  match_here bullet_continued s = Some (segs, rest) ->
  exists W W',
    segs = [W; [sq]; [bullet]; W'] /\
    s = W ++ sq :: bullet :: W' ++ rest /\
    W <> [] /\ spaces W = true /\ W' <> [] /\ spaces W' = true.
Proof.
  intros E. apply match_here_sound in E as [-> HF].
  inversion HF as [|? W ? ? [H1 N1] HF1]; subst; clear HF.
  inversion HF1 as [|? q ? ? Hq HF2]; subst; clear HF1.
  inversion HF2 as [|? b ? ? Hb HF3]; subst; clear HF2.
  inversion HF3 as [|? W' ? ? [H2 N2] HF4]; subst; clear HF3.
  inversion HF4; subst; clear HF4.
  apply fits_once in Hq as ->. apply fits_once in Hb as ->.
  exists W, W'. cbn [concat app accepts how] in *.
  rewrite app_nil_r, <- !app_assoc. repeat split; auto.
Qed.

(** A pattern whose first piece must consume a character fails on a
    text whose first character that piece rejects. *)
Lemma match_here_rejects p r c t :
  wants_input p = true -> accepts p c = false ->
  match_here (p :: r) (c :: t) = None.
Proof.
  intros Hw Hc. cbn [match_here]. unfold wants_input in Hw.
  destruct (how p); try discriminate; cbn [one_then]; rewrite Hc; reflexivity.
Qed.

Lemma quoted_needs_sq c t : c <> sq -> match_here bullet_quoted (c :: t) = None.
Proof.
  intros Hc. apply match_here_rejects; [reflexivity|].
  cbn [accepts]. unfold just. apply N.eqb_neq. congruence.
Qed.


Lemma match_here_once f r c t :
  f c = true ->
  match_here (Piece f Once :: r) (c :: t) = extend c (begin (match_here r t)).
Proof. intros Hc. cbn [match_here how accepts one_then]. rewrite Hc. reflexivity. Qed.

Lemma match_here_plus f r c t :
  f c = true ->
  match_here (Piece f Plus :: r) (c :: t) = extend c (greedy f (match_here r) t).
Proof. intros Hc. cbn [match_here how accepts one_then]. rewrite Hc. reflexivity. Qed.

Lemma match_here_lazy f r c t :
  f c = true ->
  match_here (Piece f PlusLazy :: r) (c :: t) =
  extend c (lazy_rep f (match_here r) t).
Proof. intros Hc. cbn [match_here how accepts one_then]. rewrite Hc. reflexivity. Qed.

Lemma head_not_space t :
  starts_with_space t = false ->
  match t with c :: _ => is_space c = false | [] => True end.
Proof. destruct t; simpl; auto. Qed.

Definition spaces_then_sq : regex := [Piece is_space Plus; Piece (just sq) Once].

Lemma spaces_then_sq_at W rest :
  W <> [] -> spaces W = true ->
  match_here spaces_then_sq (W ++ sq :: rest) = Some ([W; [sq]], rest).
Proof.
  intros Hne HW. destruct W as [|w W]; [congruence|].
  unfold spaces in HW. cbn [forallb] in HW. apply andb_prop in HW as [Hw HW].
  unfold spaces_then_sq. cbn [app]. rewrite match_here_plus by exact Hw.
  rewrite (greedy_takes_all is_space _ W (sq :: rest) [[sq]] rest);
    auto; reflexivity.
Qed.

Lemma spaces_then_sq_none b W rest :
  b <> [] -> no_sq b = true -> ends_in_space b = false -> spaces W = true ->
  match_here spaces_then_sq (b ++ W ++ sq :: rest) = None.
Proof.
  intros Hne Hb He HW.
  destruct (match_here spaces_then_sq _) as [[segs r]|] eqn:E; auto.
  exfalso. apply match_here_sound in E as [Hs HF].
  inversion HF as [|? W' ? ? [H1 N1] HF1]; subst; clear HF.
  inversion HF1 as [|? q ? ? Hq HF2]; subst; clear HF1.
  inversion HF2; subst; clear HF2.
  apply fits_once in Hq as ->. cbn [concat app accepts how] in *.
  rewrite <- app_assoc in Hs. cbn [app] in Hs.
  rewrite app_assoc in Hs.
  apply (first_split (except sq)) in Hs as (<- & _ & _); try reflexivity.
  - rewrite forallb_app in H1. apply andb_prop in H1 as [H1 _].
    rewrite (ends_in_space_spaces b Hne H1) in He. discriminate.
  - rewrite forallb_app. fold (no_sq b). rewrite Hb.
    apply spaces_no_sq, HW.
  - apply spaces_no_sq, H1.
Qed.

(** The first bullet pattern on ['• item '], with any runs of
    whitespace for the two spaces: the greedy run takes all the
    whitespace after the bullet and the lazy group stops at the end of
    the item. *)
Lemma quoted_match_at W1 G W2 rest :
  W1 <> [] -> spaces W1 = true ->
  G <> [] -> no_sq G = true ->
  starts_with_space G = false -> ends_in_space G = false ->
  W2 <> [] -> spaces W2 = true ->
  match_here bullet_quoted (sq :: bullet :: W1 ++ G ++ W2 ++ sq :: rest) =
  Some ([[sq]; [bullet]; W1; G; W2; [sq]], rest).
Proof.
  intros N1 H1 NG HG SG EG N2 H2.
  assert (K3 : match_here (Piece (except sq) PlusLazy :: spaces_then_sq)
                 (G ++ W2 ++ sq :: rest) = Some ([G; W2; [sq]], rest)).
  { destruct G as [|g G]; [congruence|].
    unfold no_sq in HG. cbn [forallb] in HG. apply andb_prop in HG as [Hg HG].
    cbn [app]. rewrite match_here_lazy by exact Hg.
    rewrite (lazy_takes_first (except sq) _ G (W2 ++ sq :: rest)
               [W2; [sq]] rest); auto using spaces_then_sq_at.
    intros a b -> Hb. apply spaces_then_sq_none; auto.
    - unfold no_sq. rewrite forallb_app in HG.
      apply andb_prop in HG as [_ HG]. exact HG.
    - rewrite <- EG. symmetry.
      apply (ends_in_space_suffix (g :: a) b Hb). }
  destruct W1 as [|w W1]; [congruence|].
  unfold spaces in H1. cbn [forallb] in H1. apply andb_prop in H1 as [Hw H1].
  unfold bullet_quoted.
  rewrite match_here_once by reflexivity.
  rewrite match_here_once by reflexivity.
  cbn [app]. rewrite match_here_plus by exact Hw.
  rewrite (greedy_takes_all is_space _ W1 (G ++ W2 ++ sq :: rest)
             [G; W2; [sq]] rest); auto.
  destruct G; [congruence|]. exact SG.
Qed.

(** The second bullet pattern on whitespace, quote, bullet,
    whitespace. *)
Lemma continued_match_at W W' rest :
  W <> [] -> spaces W = true -> W' <> [] -> spaces W' = true ->
  starts_with_space rest = false ->
  match_here bullet_continued (W ++ sq :: bullet :: W' ++ rest) =
  Some ([W; [sq]; [bullet]; W'], rest).
Proof.
  intros N1 H1 N2 H2 Hr.
  destruct W as [|w W]; [congruence|]. destruct W' as [|w' W']; [congruence|].
  unfold spaces in H1, H2. cbn [forallb] in H1, H2.
  apply andb_prop in H1 as [Hw H1]. apply andb_prop in H2 as [Hw' H2].
  unfold bullet_continued. cbn [app]. rewrite match_here_plus by exact Hw.
  rewrite (greedy_takes_all is_space _ W (sq :: bullet :: w' :: W' ++ rest)
             [[sq]; [bullet]; w' :: W'] rest); auto.
  rewrite match_here_once by reflexivity.
  rewrite match_here_once by reflexivity.
  rewrite match_here_plus by exact Hw'.
  rewrite (greedy_takes_all is_space _ W' rest [] rest);
    [reflexivity|exact H2|apply head_not_space, Hr|reflexivity].
Qed.

(** * The bullet passes on the forms the comments name *)

Lemma no_sq_app a b : no_sq (a ++ b) = no_sq a && no_sq b.
Proof. apply forallb_app. Qed.

Lemma spaces_app a b : spaces (a ++ b) = spaces a && spaces b.
Proof. apply forallb_app. Qed.

Lemma no_sq_head c t : no_sq (c :: t) = true -> c <> sq.
Proof.
  unfold no_sq. cbn [forallb]. intros H. apply andb_prop in H as [H _].
  apply except_true in H. exact H.
Qed.

(** The first pass copies a stretch without single quotes. *)
Lemma pass_a_skips pre t : no_sq pre = true -> pass_a (pre ++ t) = pre ++ pass_a t.
Proof.
  intros Hpre. apply sub_skips.
  intros a b -> Hb. rewrite no_sq_app in Hpre.
  apply andb_prop in Hpre as [_ Hb'].
  destruct b as [|c b]; [congruence|].
  apply quoted_needs_sq, (no_sq_head c b Hb').
Qed.

Lemma pass_a_hit W1 G W2 rest :
  W1 <> [] -> spaces W1 = true ->
  G <> [] -> no_sq G = true ->
  starts_with_space G = false -> ends_in_space G = false ->
  W2 <> [] -> spaces W2 = true ->
  pass_a (sq :: bullet :: W1 ++ G ++ W2 ++ sq :: rest) =
  [sq] ++ nl_dash ++ G ++ [sq] ++ pass_a rest.
Proof.
  intros N1 H1 NG HG SG EG N2 H2.
  pose proof (quoted_match_at W1 G W2 rest N1 H1 NG HG SG EG N2 H2) as E.
  unfold pass_a, re_sub. rewrite (sub_hit _ pass_a_proper _ _ _ _ E).
  unfold quoted_item. cbn [nth]. rewrite <- !app_assoc. reflexivity.
Qed.

(** The second pattern does not match where the text up to the next
    single quote is not all whitespace. *)
Lemma continued_none Y r :
  no_sq Y = true -> spaces Y = false ->
  match_here bullet_continued (Y ++ sq :: r) = None.
Proof.
  intros HY HS.
  destruct (match_here bullet_continued _) as [[segs rest]|] eqn:E; auto.
  exfalso. apply continued_match in E as (W & W' & _ & Hs & _ & HW & _).
  apply (first_split (except sq)) in Hs as (-> & _ & _); try reflexivity.
  - congruence.
  - exact HY.
  - apply spaces_no_sq, HW.
Qed.



Lemma spaces_false_suffix a b :
  b <> [] -> ends_in_space b = false -> spaces (a ++ b) = false.
Proof.
  intros Hne He. destruct (spaces (a ++ b)) eqn:E; auto.
  rewrite spaces_app in E. apply andb_prop in E as [_ E].
  rewrite (ends_in_space_spaces b Hne E) in He. discriminate.
Qed.

(** The second pass copies a stretch without single quotes that does
    not end in whitespace, when a single quote follows. *)
Lemma pass_b_skips pre W r :
  no_sq pre = true -> ends_in_space pre = false -> spaces W = true ->
  pass_b (pre ++ W ++ sq :: r) = pre ++ pass_b (W ++ sq :: r).
Proof.
  intros Hpre He HW. apply sub_skips.
  intros a b -> Hb. rewrite app_assoc. apply continued_none.
  - rewrite no_sq_app in Hpre. apply andb_prop in Hpre as [_ Hpre].
    rewrite no_sq_app, Hpre. apply spaces_no_sq, HW.
  - rewrite spaces_app.
    rewrite (ends_in_space_suffix a b Hb) in He.
    replace (spaces b) with false; auto.
    symmetry. apply (spaces_false_suffix [] b Hb He).
Qed.

Lemma pass_b_hit W W' rest :
  W <> [] -> spaces W = true -> W' <> [] -> spaces W' = true ->
  starts_with_space rest = false ->
  pass_b (W ++ sq :: bullet :: W' ++ rest) = W ++ [sq] ++ nl_dash ++ pass_b rest.
Proof.
  intros N1 H1 N2 H2 Hr.
  pose proof (continued_match_at W W' rest N1 H1 N2 H2 Hr) as E.
  unfold pass_b, re_sub. rewrite (sub_hit _ pass_b_proper _ _ _ _ E).
  unfold continued_item. cbn [nth]. rewrite <- !app_assoc. reflexivity.
Qed.

(** An item: not empty, without single quote, without whitespace at
    either end.  A gap: a run of whitespace, not empty. *)
Definition is_item (G : text) : bool :=
  match G with [] => false | _ => true end &&
  no_sq G && negb (starts_with_space G) && negb (ends_in_space G).

Definition is_gap (W : text) : bool :=
  match W with [] => false | _ => true end && spaces W.

Lemma is_item_true G :
  is_item G = true ->
  G <> [] /\ no_sq G = true /\ starts_with_space G = false /\
  ends_in_space G = false.
Proof.
  unfold is_item. intros H.
  apply andb_prop in H as [H H4]. apply andb_prop in H as [H H3].
  apply andb_prop in H as [H1 H2].
  apply negb_true_iff in H3, H4.
  repeat split; auto. destruct G; [discriminate|discriminate].
Qed.

Lemma is_gap_true W : is_gap W = true -> W <> [] /\ spaces W = true.
Proof.
  unfold is_gap. intros H. apply andb_prop in H as [H1 H2].
  split; auto. destruct W; discriminate.
Qed.

(** X1.  Line 15 on the form its comment names.  After a stretch
    without single quotes, a quoted bullet item (quote, bullet,
    whitespace, item, whitespace, quote) becomes quote, backslash, n,
    hyphen, space, item, quote: the whitespace around the item is
    dropped, and the pass goes on with the text after the closing
    quote. *)
Theorem pass_a_rewrites_item (pre W1 G W2 rest : text) :
  no_sq pre = true -> is_gap W1 = true -> is_item G = true ->
  is_gap W2 = true ->
  pass_a (pre ++ [sq; bullet] ++ W1 ++ G ++ W2 ++ [sq] ++ rest) =
  pre ++ [sq] ++ nl_dash ++ G ++ [sq] ++ pass_a rest.
Proof.
  intros Hpre H1 HG H2.
  apply is_gap_true in H1 as [N1 H1]. apply is_gap_true in H2 as [N2 H2].
  apply is_item_true in HG as (NG & HG & SG & EG).
  rewrite (pass_a_skips pre _ Hpre). f_equal.
  apply pass_a_hit; auto.
Qed.

Lemma pass_a_rewrites_item_witness :
  pass_a (str "x = " ++ [sq; bullet] ++ str "  " ++ str "a b" ++ str " " ++
          [sq] ++ str ";") =
  str "x = " ++ [sq] ++ nl_dash ++ str "a b" ++ [sq] ++ pass_a (str ";").
Proof.
  apply (pass_a_rewrites_item (str "x = ") (str "  ") (str "a b") (str " ")
           (str ";")); reflexivity.
Defined.

(** X2.  Line 18 on the form its comment names.  After a stretch
    without single quotes that does not end in whitespace, a run of
    whitespace, a quote, a bullet and a run of whitespace become the
    same run of whitespace, the quote, backslash, n, hyphen, space; the
    pass goes on with what follows. *)
Theorem pass_b_rewrites_continuation (pre W W' rest : text) :
  no_sq pre = true -> ends_in_space pre = false ->
  is_gap W = true -> is_gap W' = true -> starts_with_space rest = false ->
  pass_b (pre ++ W ++ [sq; bullet] ++ W' ++ rest) =
  pre ++ W ++ [sq] ++ nl_dash ++ pass_b rest.
Proof.
  intros Hpre He H1 H2 Hr.
  apply is_gap_true in H1 as [N1 H1]. apply is_gap_true in H2 as [N2 H2].
  cbn [app]. rewrite (pass_b_skips pre W _ Hpre He H1). f_equal.
  apply pass_b_hit; auto.
Qed.

Lemma pass_b_rewrites_continuation_witness :
  pass_b (str "+" ++ str "  " ++ [sq; bullet] ++ str " " ++ str "item") =
  str "+" ++ str "  " ++ [sq] ++ nl_dash ++ pass_b (str "item").
Proof.
  apply (pass_b_rewrites_continuation (str "+") (str "  ") (str " ")
           (str "item")); reflexivity.
Defined.

(** * Both passes on one text *)











(** * What the steps leave alone *)

(** The number of occurrences of a character. *)
Definition count (c : char) (s : text) : nat := length (filter (N.eqb c) s).

Lemma count_app c a b : count c (a ++ b) = (count c a + count c b)%nat.
Proof. unfold count. rewrite filter_app, length_app. reflexivity. Qed.

Lemma count_cons c x s :
  count c (x :: s) = ((if (c =? x)%N then 1 else 0) + count c s)%nat.
Proof. unfold count. cbn [filter]. destruct (c =? x); reflexivity. Qed.

Lemma count_none c s : (forall x, In x s -> x <> c) -> count c s = 0%nat.
Proof.
  induction s as [|x s IH]; intros H; auto.
  rewrite count_cons, IH.
  - destruct (c =? x) eqn:E; auto. apply N.eqb_eq in E.
    exfalso. apply (H x); [left; reflexivity|congruence].
  - intros y Hy. apply H. right. exact Hy.
Qed.

Lemma count_spaces c W : is_space c = false -> spaces W = true -> count c W = 0%nat.
Proof.
  intros Hc HW. apply count_none. intros x Hx ->.
  unfold spaces in HW. rewrite forallb_forall in HW.
  rewrite (HW c Hx) in Hc. discriminate.
Qed.

Section Counting.

Variable m : matcher.
Hypothesis m_proper : proper m.
Variable repl : list text -> text.
Variable c : char.

(** A substitution whose replacements hold as many [c] as the matched
    text keeps the number of [c]. *)
Lemma sub_count s :
  (forall t segs rest, m t = Some (segs, rest) ->
     count c (repl segs) = count c (concat segs)) ->
  count c (sub_with m repl s) = count c s.
Proof.
  intros Hrepl. pattern s. apply (scan_ind m m_proper); clear s.
  - rewrite sub_nil by auto. reflexivity.
  - intros x s Hm IH. rewrite sub_gap by auto.
    rewrite !count_cons, IH. reflexivity.
  - intros segs rest Hm _ IH. rewrite (sub_hit m m_proper repl _ _ _ Hm).
    rewrite !count_app, IH, (Hrepl _ _ _ Hm). reflexivity.
Qed.

End Counting.

(** The characters the pipeline writes or drops on purpose: the bullet,
    the backslash, and the letters and hyphen of its replacement
    texts. *)
Definition rewritten : text := Eval cbv in bullet :: bs :: str "n-deviceresource".

Definition kept (c : char) : bool :=
  negb (is_space c) && negb (existsb (N.eqb c) rewritten).

Lemma kept_true c :
  kept c = true -> is_space c = false /\ forall x, In x rewritten -> x <> c.
Proof.
  unfold kept. intros H. apply andb_prop in H as [H1 H2].
  apply negb_true_iff in H1, H2. split; auto.
  intros x Hx ->.
  assert (E : existsb (N.eqb c) rewritten = true)
    by (apply existsb_exists; exists c; split; auto; apply N.eqb_refl).
  congruence.
Qed.

Lemma count_nl_dash c : kept c = true -> count c nl_dash = 0%nat.
Proof.
  intros H. apply kept_true in H as [Hs H]. apply count_none.
  intros x Hx. unfold nl_dash in Hx. cbn [In] in Hx.
  destruct Hx as [<-|[<-|[<-|[<-|[]]]]].
  - apply H. unfold rewritten. cbn [In]. tauto.
  - apply H. unfold rewritten. cbn [In]. tauto.
  - apply H. unfold rewritten. cbn [In]. tauto.
  - intros <-. discriminate.
Qed.

Lemma count_one c x : x <> c -> count c [x] = 0%nat.
Proof. intros H. apply count_none. intros y [<-|[]]. exact H. Qed.

Lemma count_self c : count c [c] = 1%nat.
Proof. rewrite count_cons, N.eqb_refl. reflexivity. Qed.

Lemma pass_a_count c s : kept c = true -> count c (pass_a s) = count c s.
Proof.
  intros Hk. pose proof (kept_true c Hk) as [Hs Hr].
  apply (sub_count _ pass_a_proper). intros t segs rest E.
  apply quoted_match in E as (W1 & G & W2 & -> & _ & _ & H1 & _ & _ & _ & H2).
  unfold quoted_item. cbn [nth concat].
  rewrite !count_app, (count_nl_dash c Hk).
  rewrite (count_spaces c W1 Hs H1), (count_spaces c W2 Hs H2).
  rewrite (count_one c bullet) by (apply Hr; left; reflexivity).
  cbn [count filter length]. lia.
Qed.

Lemma pass_b_count c s : kept c = true -> count c (pass_b s) = count c s.
Proof.
  intros Hk. pose proof (kept_true c Hk) as [Hs Hr].
  apply (sub_count _ pass_b_proper). intros t segs rest E.
  apply continued_match in E as (W & W' & -> & _ & _ & H1 & _ & H2).
  unfold continued_item. cbn [nth concat].
  rewrite !count_app, (count_nl_dash c Hk).
  rewrite (count_spaces c W' Hs H2).
  rewrite (count_one c bullet) by (apply Hr; left; reflexivity).
  cbn [count filter length]. lia.
Qed.

Lemma escape_all_count c X : c <> bs -> count c (escape_all X) = count c X.
Proof.
  intros Hc. induction X as [|x X IH]; auto.
  change (escape_all (x :: X)) with (escape_char x ++ escape_all X).
  rewrite count_app, count_cons, IH. f_equal.
  unfold escape_char. destruct (x =? tilde) eqn:E.
  - apply N.eqb_eq in E as ->. unfold bs_tilde.
    rewrite !count_cons. replace (c =? bs) with false.
    + cbn [count filter length]. lia.
    + symmetry. apply N.eqb_neq. exact Hc.
  - rewrite count_cons. cbn [count filter length]. lia.
Qed.

Lemma tilde_step_count c s : c <> bs -> count c (tilde_step s) = count c s.
Proof.
  intros Hc. apply (sub_count _ filter_proper). intros t segs rest E.
  apply filter_match in E as (X & Hfull & _).
  rewrite (escape_tildes_span segs X Hfull), Hfull, !count_app.
  unfold escaped_inside. destruct (contains bs_tilde _); auto.
  rewrite (escape_all_count c X Hc). reflexivity.
Qed.

Definition device : text := Eval cbv in str "device".
Definition resource : text := Eval cbv in str "resource".

Lemma count_device_resource c A B :
  kept c = true ->
  count c (A ++ resource ++ B) = count c (A ++ device ++ B).
Proof.
  intros Hk. apply kept_true in Hk as [_ Hr]. rewrite !count_app.
  rewrite (count_none c device), (count_none c resource); auto.
  - intros x Hx. apply Hr. unfold resource in Hx. unfold rewritten.
    cbn [In] in Hx |- *. tauto.
  - intros x Hx. apply Hr. unfold device in Hx. unfold rewritten.
    cbn [In] in Hx |- *. tauto.
Qed.

Lemma replace_count c old new s :
  old <> [] -> count c new = count c old ->
  count c (str_replace old new s) = count c s.
Proof.
  intros Hne Hc. apply (sub_count _ (literally_proper old Hne)).
  intros t segs rest E. apply literally_some in E as [-> _].
  cbn [concat]. rewrite app_nil_r. exact Hc.
Qed.

Lemma rename_count c s : kept c = true -> count c (rename s) = count c s.
Proof.
  intros Hk. unfold rename.
  rewrite (replace_count c old4 new4), (replace_count c old3 new3),
    (replace_count c old2 new2), (replace_count c old1 new1);
    try discriminate; auto.
  - apply (count_device_resource c (dq :: str "create_") (str "_sdt" ++ [dq]) Hk).
  - apply (count_device_resource c (dq :: str "list_")
             (str "_datasources" ++ [dq]) Hk).
  - apply (count_device_resource c (dq :: str "list_")
             (str "_properties" ++ [dq]) Hk).
  - apply (count_device_resource c (dq :: str "update_")
             (str "_property" ++ [dq]) Hk).
Qed.

(** X5.  Apart from whitespace, the bullet, the backslash and the
    letters and hyphen of the replacement texts, the pipeline neither
    adds nor drops a character: every other character (the two quotes,
    the tilde, the colon, ...) occurs in the result exactly as often
    as in the input. *)
Theorem transform_keeps_count (c : char) (s : text) :
  kept c = true -> count c (transform s) = count c s.
Proof.
  intros Hk. unfold transform, bullets.
  rewrite (rename_count c _ Hk), tilde_step_count, (pass_b_count c _ Hk).
  - apply pass_a_count, Hk.
  - apply kept_true in Hk as [_ Hr]. intros ->.
    apply (Hr bs); [|reflexivity]. unfold rewritten. cbn [In]. tauto.
Qed.

Lemma transform_keeps_count_witness :
  count dq (transform name_filter) = count dq name_filter.
Proof. apply transform_keeps_count. reflexivity. Defined.

(** * The tilde step, further *)






(** Whether a token of the scan is a span that holds a
    backslash-tilde. *)
Definition escaped_token (t : token) : Prop :=
  match t with
  | Gap _ => True
  | Hit g => contains bs_tilde (concat g) = true
  end.

(** X7.  After the tilde step every span the pattern matches holds a
    backslash-tilde: a second run finds the same spans and its guard
    leaves each of them alone. *)
Theorem tilde_step_spans_escaped (s : text) :
  Forall escaped_token (scan (match_here filter_re) (tilde_step s)).
Proof.
  pattern s. apply tilde_ind; clear s.
  - rewrite tilde_nil, (scan_nil _ filter_proper). constructor.
  - intros c s Hm IH. rewrite (tilde_gap c s Hm).
    rewrite (scan_gap _ c _ (filter_none_kept c s Hm)).
    constructor; [exact I|exact IH].
  - intros X rest HX Ht IH. rewrite (tilde_hit X rest HX Ht).
    destruct (escaped_inside_ok X HX Ht) as (HX' & Ht' & Hesc).
    destruct (filter_match_at (escaped_inside X) (tilde_step rest) HX' Ht')
      as (segs & E & Hfull).
    rewrite (scan_hit _ filter_proper _ _ _ E).
    constructor; [|exact IH].
    simpl. rewrite Hfull. exact Hesc.
Qed.

(** * What sets the bullet passes off *)

(** A single quote, a bullet and a whitespace character in a row. *)
Fixpoint has_quoted_bullet (s : text) : bool :=
  match s with
  | [] => false
  | q :: t =>
      match t with
      | b :: w :: _ => (q =? sq) && (b =? bullet) && is_space w
      | _ => false
      end || has_quoted_bullet t
  end.

Lemma has_quoted_bullet_in a w r :
  is_space w = true -> has_quoted_bullet (a ++ sq :: bullet :: w :: r) = true.
Proof.
  intros Hw. induction a as [|c a IH].
  - cbn [app has_quoted_bullet]. rewrite Hw. reflexivity.
  - cbn [app has_quoted_bullet]. rewrite IH. apply orb_true_r.
Qed.

Lemma spaces_head W :
  W <> [] -> spaces W = true -> exists w W', W = w :: W' /\ is_space w = true.
Proof.
  intros Hne HW. destruct W as [|w W']; [congruence|].
  unfold spaces in HW. cbn [forallb] in HW. apply andb_prop in HW as [Hw _].
  eauto.
Qed.

(** X8.  Both bullet passes need a single quote, a bullet and a
    whitespace character in a row: a text without such a triple, for
    instance one whose bullets are not followed by whitespace or do
    not follow a single quote, comes out of both passes unchanged. *)
Theorem bullets_need_quoted_bullet (s : text) :
  has_quoted_bullet s = false -> pass_a s = s /\ bullets s = s.
Proof.
  intros H.
  assert (HA : pass_a s = s).
  { apply sub_never; [apply pass_a_proper|]. intros a t ->.
    destruct (match_here bullet_quoted t) as [[segs rest]|] eqn:E; auto.
    apply quoted_match in E as (W1 & G & W2 & _ & -> & N1 & H1 & _).
    destruct (spaces_head W1 N1 H1) as (w & W' & -> & Hw).
    cbn [app] in H. rewrite (has_quoted_bullet_in a w _ Hw) in H.
    discriminate. }
  split; [exact HA|]. unfold bullets. rewrite HA.
  apply sub_never; [apply pass_b_proper|]. intros a t ->.
  destruct (match_here bullet_continued t) as [[segs rest]|] eqn:E; auto.
  apply continued_match in E as (W & W' & _ & -> & _ & _ & N2 & H2).
  destruct (spaces_head W' N2 H2) as (w & W'' & -> & Hw).
  rewrite app_assoc in H. cbn [app] in H.
  rewrite (has_quoted_bullet_in (a ++ W) w _ Hw) in H. discriminate.
Qed.

Definition loose_bullets : text :=
  Eval cbv in
    [sq; bullet] ++ str "tight' and " ++ [bullet] ++ str " alone, " ++
    [dq; bullet] ++ str " x ".

Lemma bullets_need_quoted_bullet_witness :
  pass_a loose_bullets = loose_bullets /\ bullets loose_bullets = loose_bullets.
Proof. apply bullets_need_quoted_bullet. reflexivity. Defined.

(** * Tildes outside the spans *)

(** Some suffix of [pre] is [filter:"] followed by text without a
    double quote: a character put after [pre] would stand inside an
    open [filter:"...] literal. *)
Fixpoint open_span (pre : text) : bool :=
  match strip_prefix filter_open pre with
  | Some r => no_dq r
  | None => false
  end ||
  match pre with
  | [] => false
  | _ :: t => open_span t
  end.

(** The character between [pre] and [post] stands inside a span
    [filter:"..."]: the literal is open before it and a double quote
    closes it after. *)
Definition inside_filter_span (pre post : text) : bool :=
  open_span pre && negb (no_dq post).

Lemma open_span_unfold pre :
  open_span pre =
  match strip_prefix filter_open pre with Some r => no_dq r | None => false end
  || match pre with [] => false | _ :: t => open_span t end.
Proof. destruct pre; reflexivity. Qed.

Lemma open_span_here X : no_dq X = true -> open_span (filter_open ++ X) = true.
Proof.
  intros HX. rewrite open_span_unfold, strip_prefix_app, HX. reflexivity.
Qed.

Lemma open_span_after a b : open_span b = true -> open_span (a ++ b) = true.
Proof.
  intros Hb. induction a as [|c a IH]; auto.
  cbn [app]. rewrite open_span_unfold, IH. apply orb_true_r.
Qed.

Lemma filter_needs_f c t : c <> 102 -> match_here filter_re (c :: t) = None.
Proof.
  intros Hc.
  destruct (match_here filter_re (c :: t)) as [[segs rest]|] eqn:E; auto.
  apply filter_match in E as (X & _ & Hs & _).
  unfold filter_open in Hs. cbn [app] in Hs. inversion Hs. congruence.
Qed.

Lemma no_dq_app a b : no_dq (a ++ b) = no_dq a && no_dq b.
Proof. apply forallb_app. Qed.

Lemma no_dq_has X r : no_dq (X ++ dq :: r) = false.
Proof.
  rewrite no_dq_app. unfold no_dq at 2. cbn [forallb].
  replace (except dq dq) with false by reflexivity.
  cbn [andb]. apply andb_false_r.
Qed.

(** A match that starts in [pre] and is found with a tilde and [post]
    after it either lies within [pre] or runs over the tilde. *)
Lemma filter_match_across pre post :
  match_here filter_re (pre ++ tilde :: post) <> None ->
  match_here filter_re pre <> None \/ inside_filter_span pre post = true.
Proof.
  intros Hm.
  destruct (match_here filter_re (pre ++ tilde :: post))
    as [[segs rest]|] eqn:E; [clear Hm|congruence].
  apply filter_match in E as (X & _ & Hs & HX & Ht).
  rewrite app_assoc in Hs.
  apply app_eq_app in Hs as [l [[Hpre Hl]|[Hpre Hl]]].
  - (* the closing quote is in [pre] *)
    destruct l as [|c l]; [discriminate|]. inversion Hl; subst.
    left. rewrite <- !app_assoc.
    destruct (filter_match_at X l HX Ht) as (segs' & E' & _).
    cbn [app]. rewrite E'. discriminate.
  - (* the closing quote is in [post] *)
    right. destruct l as [|c l]; [discriminate|]. inversion Hl; subst.
    unfold inside_filter_span. rewrite no_dq_has, andb_true_r.
    apply app_eq_app in Hpre as [l2 [[HP Hl2]|[HP Hl2]]].
    + destruct l2 as [|c2 l2].
      * rewrite app_nil_r in HP. subst pre.
        apply (open_span_here []). reflexivity.
      * inversion Hl2; subst. exfalso.
        assert (Hin : In tilde filter_open)
          by (rewrite HP; apply in_elt).
        unfold filter_open in Hin. cbn [In] in Hin.
        repeat (destruct Hin as [Hin|Hin]; [discriminate|]). exact Hin.
    + subst pre. apply open_span_here.
      rewrite Hl2, no_dq_app in HX. apply andb_prop in HX as [HX _].
      exact HX.
Qed.

(** X9.  A tilde that does not stand inside a span [filter:"..."] is
    not touched by the tilde step, and the step works on the text
    before it and on the text after it separately. *)
Theorem tilde_outside_span_kept (pre post : text) :
  inside_filter_span pre post = false ->
  tilde_step (pre ++ tilde :: post) =
  tilde_step pre ++ tilde :: tilde_step post.
Proof.
  pattern pre. apply tilde_ind; clear pre.
  - intros _. rewrite tilde_nil. cbn [app].
    apply tilde_gap, filter_needs_f. discriminate.
  - intros c s Hm IH Hin. cbn [app].
    rewrite (tilde_gap c s Hm), tilde_gap.
    + cbn [app]. f_equal. apply IH.
      unfold inside_filter_span in *.
      destruct (no_dq post); [apply andb_false_r|].
      rewrite andb_true_r in *.
      rewrite open_span_unfold in Hin.
      apply orb_false_elim in Hin as [_ Hin]. exact Hin.
    + destruct (match_here filter_re (c :: s ++ tilde :: post)) eqn:E; auto.
      destruct (filter_match_across (c :: s) post) as [H|H].
      * cbn [app]. rewrite E. discriminate.
      * exfalso. apply H, Hm.
      * rewrite H in Hin. discriminate.
  - intros X rest HX Ht IH Hin.
    replace ((filter_open ++ X ++ dq :: rest) ++ tilde :: post)
      with (filter_open ++ X ++ dq :: rest ++ tilde :: post)
      by (rewrite <- !app_assoc; reflexivity).
    rewrite !(tilde_hit X _ HX Ht), IH.
    + rewrite <- !app_assoc. reflexivity.
    + unfold inside_filter_span in *.
      destruct (no_dq post); [apply andb_false_r|].
      rewrite andb_true_r in *.
      destruct (open_span rest) eqn:Hr; auto.
      pose proof (open_span_after (filter_open ++ X ++ [dq]) rest Hr) as Ho.
      rewrite <- !app_assoc in Ho. cbn [app] in Ho.
      rewrite Ho in Hin. discriminate.
Qed.

Lemma tilde_outside_span_kept_witness :
  tilde_step ((name_filter ++ str " and a") ++ tilde :: str "b") =
  tilde_step (name_filter ++ str " and a") ++ tilde :: tilde_step (str "b").
Proof. apply tilde_outside_span_kept. reflexivity. Defined.

(** * Items that share a quote *)

Lemma pass_a_lone_quote : pass_a [sq] = [sq].
Proof. reflexivity. Qed.

Lemma quoted_needs_bullet c t :
  c <> bullet -> match_here bullet_quoted (sq :: c :: t) = None.
Proof.
  intros Hc.
  destruct (match_here bullet_quoted (sq :: c :: t)) as [[segs rest]|] eqn:E;
    auto.
  apply quoted_match in E as (W1 & G & W2 & _ & Hs & _).
  inversion Hs. congruence.
Qed.

Lemma is_item_no_sq G : is_item G = true -> no_sq G = true.
Proof. intros H. apply is_item_true in H. tauto. Qed.

Lemma is_gap_no_sq W : is_gap W = true -> no_sq W = true.
Proof. intros H. apply is_gap_true in H as [_ H]. apply spaces_no_sq, H. Qed.

(** X10.  The first bullet substitution on two quoted bullet items of
    which the second begins on the closing quote of the first: one
    application converts the first item only, because the scan goes on
    after the quote it has consumed; a second application converts the
    other. *)
Theorem shared_quote_needs_two_runs (W1 G1 W2 W3 G2 W4 : text) :
  is_gap W1 = true -> is_item G1 = true -> is_gap W2 = true ->
  is_gap W3 = true -> is_item G2 = true -> is_gap W4 = true ->
  pass_a ([sq; bullet] ++ W1 ++ G1 ++ W2 ++ [sq; bullet] ++ W3 ++ G2 ++
          W4 ++ [sq]) =
  [sq] ++ nl_dash ++ G1 ++ [sq; bullet] ++ W3 ++ G2 ++ W4 ++ [sq] /\
  pass_a ([sq] ++ nl_dash ++ G1 ++ [sq; bullet] ++ W3 ++ G2 ++ W4 ++ [sq]) =
  [sq] ++ nl_dash ++ G1 ++ [sq] ++ nl_dash ++ G2 ++ [sq].
Proof.
  intros H1 HG1 H2 H3 HG2 H4. split.
  - change ([sq; bullet] ++ W1 ++ G1 ++ W2 ++ [sq; bullet] ++ W3 ++ G2 ++
            W4 ++ [sq])
      with ([] ++ [sq; bullet] ++ W1 ++ G1 ++ W2 ++ [sq] ++
            [bullet] ++ W3 ++ G2 ++ W4 ++ [sq]).
    rewrite pass_a_rewrites_item by auto. cbn [app]. do 6 f_equal.
    change (bullet :: W3 ++ G2 ++ W4 ++ [sq])
      with ([bullet] ++ W3 ++ G2 ++ W4 ++ [sq]).
    rewrite !app_assoc, pass_a_skips, pass_a_lone_quote; auto.
    rewrite !no_sq_app, (is_gap_no_sq W3 H3), (is_item_no_sq G2 HG2),
      (is_gap_no_sq W4 H4). reflexivity.
  - cbn [app]. unfold pass_a at 1, re_sub.
    rewrite sub_gap by (apply quoted_needs_bullet; discriminate).
    f_equal.
    change (sub_with (match_here bullet_quoted) quoted_item) with pass_a.
    replace (nl_dash ++ G1 ++ sq :: bullet :: W3 ++ G2 ++ W4 ++ [sq])
      with ((nl_dash ++ G1) ++ [sq; bullet] ++ W3 ++ G2 ++ W4 ++ [sq] ++ [])
      by (rewrite <- !app_assoc; reflexivity).
    rewrite pass_a_rewrites_item; auto.
    rewrite no_sq_app, (is_item_no_sq G1 HG1). reflexivity.
Qed.

Lemma shared_quote_needs_two_runs_witness :
  pass_a ([sq; bullet] ++ str " " ++ str "a" ++ str " " ++ [sq; bullet] ++
          str " " ++ str "b" ++ str " " ++ [sq]) =
  [sq] ++ nl_dash ++ str "a" ++ [sq; bullet] ++ str " " ++ str "b" ++
  str " " ++ [sq] /\
  pass_a ([sq] ++ nl_dash ++ str "a" ++ [sq; bullet] ++ str " " ++ str "b" ++
          str " " ++ [sq]) =
  [sq] ++ nl_dash ++ str "a" ++ [sq] ++ nl_dash ++ str "b" ++ [sq].
Proof.
  apply (shared_quote_needs_two_runs (str " ") (str "a") (str " ") (str " ")
           (str "b") (str " ")); reflexivity.
Defined.

(** * What the callback returns *)

Lemma bare_tilde_escape_all b X : bare_tilde b (escape_all X) = false.
Proof.
  revert b. induction X as [|x X IH]; intros b; auto.
  change (escape_all (x :: X)) with (escape_char x ++ escape_all X).
  unfold escape_char. destruct (x =? tilde) eqn:E.
  - unfold bs_tilde. cbn [app bare_tilde].
    replace (bs =? tilde) with false by reflexivity.
    replace (bs =? bs) with true by reflexivity.
    replace (tilde =? bs) with false by reflexivity.
    cbn [andb orb negb]. rewrite andb_false_r. apply IH.
  - cbn [app bare_tilde]. rewrite E. cbn [andb orb]. apply IH.
Qed.

(** X11.  When [escape_tildes] is given a span without backslash-tilde,
    every tilde of what it returns has a backslash right before it. *)
Theorem escape_tildes_leaves_no_bare_tilde (g : list text) :
  contains bs_tilde (concat g) = false ->
  has_unescaped_tilde (escape_tildes g) = false.
Proof.
  intros H. unfold escape_tildes. rewrite H. cbn [negb].
  rewrite replace_tilde. apply bare_tilde_escape_all.
Qed.

Lemma escape_tildes_leaves_no_bare_tilde_witness :
  has_unescaped_tilde (escape_tildes name_filter_segs) = false.
Proof. apply escape_tildes_leaves_no_bare_tilde. reflexivity. Defined.

(** * [main] and the file *)










